(** * SalaMANdER: solid mechanics and nonlinear elasticity routines

    A shallow embedding of [SalaMANdER.py].  The module builds symbolic
    (UFL) expressions: the embedding keeps them as a syntax tree, translates
    every function and method of the module into a function that builds such
    trees, and gives the trees a pointwise meaning over an ordered field so
    that statements about the value of a residual can be made. *)

Set Warnings "-notation-overridden,-ambiguous-paths,-notation-incompatible-prefix,-deprecated".
From HB Require Import structures.
From Stdlib Require Import String.
From mathcomp Require Import boot order algebra.

Set Implicit Arguments.
Unset Strict Implicit.
Unset Printing Implicit Defensive.

Import GRing.Theory Num.Theory.
Local Open Scope ring_scope.

(** ** Symbolic expressions

    The expression objects handed out by dolfin/UFL.  [Coefficient] is a
    field living on the mesh (a dolfin [Function], [TestFunction], ...),
    [Constant] is dolfin's [Constant(c)], [ScalarValue] is a Python number
    promoted when it meets an expression.  Python floats are idealised as
    rationals. *)

Inductive expr : Type :=
| Coefficient (name : string) (shape : seq nat)
| Constant (c : rat)
| ScalarValue (c : rat)
| Identity (n : nat)
| Grad (f : expr)
| Det (A : expr)
| Tr (A : expr)
| Inv (A : expr)
| Transpose (A : expr)
| Neg (a : expr)
| Add (a b : expr)
| Sub (a b : expr)
| Mul (a b : expr)
| Div (a b : expr)
| Pow (a b : expr)
| Inner (a b : expr).

(** Integration measures ([dx], [ds], [dx(1)], ...) and the forms obtained
    by multiplying a scalar integrand with a measure. *)

Inductive measure : Type :=
| Measure (integral_type : string) (subdomain_id : option nat).

Inductive form : Type :=
| Integral (integrand : expr) (m : measure).

Definition dx : measure := Measure "dx" None.
Definition ds : measure := Measure "ds" None.

(** [e * dx] in Python: [Measure.__rmul__]. *)
Definition mul_measure (e : expr) (m : measure) : form := Integral e m.

Declare Scope ufl_scope.
Delimit Scope ufl_scope with ufl.
Bind Scope ufl_scope with expr.
Notation "a + b" := (Add a b) : ufl_scope.
Notation "a - b" := (Sub a b) : ufl_scope.
Notation "a * b" := (Mul a b) : ufl_scope.
Notation "a / b" := (Div a b) : ufl_scope.
Notation "- a" := (Neg a) : ufl_scope.
Notation "a ^T" := (Transpose a) : ufl_scope.
Notation "a *d m" := (mul_measure a m) (at level 45, left associativity).

(** ** Elastic-parameter conversion

    The four conversion functions are duck-typed: they are called with
    Python numbers and with UFL expressions alike.  [PyArith] is the
    interface they rely on; its instances are the expressions and the
    numbers of an ordered field (Python floats, idealised). *)

Class PyArith (T : Type) : Type := {
  lit : rat -> T;
  padd : T -> T -> T;
  psub : T -> T -> T;
  pmul : T -> T -> T;
  pdiv : T -> T -> T
}.

#[export] Instance expr_arith : PyArith expr :=
  {| lit := ScalarValue; padd := Add; psub := Sub; pmul := Mul; pdiv := Div |}.

#[export] Instance field_arith (R : numFieldType) : PyArith R :=
  {| lit := ratr; padd := +%R; psub := fun x y => x - y; pmul := *%R;
     pdiv := fun x y => x / y |}.

Section Conversion.
Context {T : Type} {arith : PyArith T}.

Definition firstLameParameter (E nu : T) : T :=
  pdiv (pmul E nu)
       (pmul (padd (lit 1) nu) (psub (lit 1) (pmul (lit 2%:Q) nu))).

Definition secondLameParameter (E nu : T) : T :=
  pdiv E (pmul (lit 2%:Q) (padd (lit 1) nu)).

Definition bulkModulus (E nu : T) : T :=
  padd (firstLameParameter E nu)
       (pmul (lit (2%:Q / 3%:Q)) (secondLameParameter E nu)).

Definition shearModulus (E nu : T) : T :=
  secondLameParameter E nu.

End Conversion.

(** ** Objects, exceptions and the method monad

    A material object carries its class, its density [rho] and its property
    dictionary [props] (the keyword arguments of the constructor, which
    Python guarantees to have distinct keys).  A method is a computation
    that may raise, and that receives and returns the object it is called
    on, so that what a method does to [self] can be stated. *)

Inductive class : Type :=
| MaterialModel
| StVenantKirchoff
| NeoHookean
| JacobianStiffening.

Record instance : Type := Instance {
  ob_class : class;
  rho : expr;
  props : seq (string * expr)
}.

Inductive exn : Type :=
| KeyError (key : string)
| TypeError (msg : string)
| AttributeError (name : string)
| UFLException (msg : string).

Definition result (A : Type) : Type := (exn + A)%type.

Definition M (A : Type) : Type := instance -> result A * instance.

Definition ret {A} (a : A) : M A := fun self => (inr a, self).

Definition raise {A} (e : exn) : M A := fun self => (inl e, self).

Definition bind {A B} (c : M A) (k : A -> M B) : M B :=
  fun self =>
    match c self with
    | (inr a, self') => k a self'
    | (inl e, self') => (inl e, self')
    end.

Notation "x <- c ;; k" := (bind c (fun x => k))
  (at level 100, c at next level, right associativity).
Notation "' p <- c ;; k" := (bind c (fun x => match x with p => k end))
  (at level 100, p pattern, c at next level, right associativity).

(** The value a call returns and the object it leaves behind. *)
Definition returned {A} (c : M A) (self : instance) : result A := (c self).1.
Definition after {A} (c : M A) (self : instance) : instance := (c self).2.

(** A call leaves the object as it found it, so that calling again
    returns the same. *)
Definition frame_preserving {A} (c : M A) : Prop :=
  forall self, after c self = self
               /\ returned c (after c self) = returned c self.

Definition succeeds {A} (r : result A) : bool :=
  if r is inr _ then true else false.

(** [d[k]] on a Python dict. *)
Fixpoint lookup (k : string) (d : seq (string * expr)) : option expr :=
  match d with
  | [::] => None
  | (k', x) :: d' => if String.eqb k k' then Some x else lookup k d'
  end.

(** [self.rho] and [self.props[k]]. *)
Definition self_rho : M expr := fun self => (inr (rho self), self).

Definition self_props (k : string) : M expr :=
  fun self =>
    match lookup k (props self) with
    | Some x => (inr x, self)
    | None => (inl (KeyError k), self)
    end.

(** The tuple [I,F,J,C,E] returned by [getBasicTensors]. *)
Definition tensors : Type := (expr * expr * expr * expr * expr)%type.

(** What a class body can bind a name to: the constructor, a method
    decorated with [@abstractmethod], or a plain method (sorted by the
    arguments it takes after [self]). *)
Inductive method : Type :=
| Constructor (f : class -> option expr -> seq (string * expr) -> instance)
| AbstractMethod
| Method3 (f : expr -> expr -> measure -> M form)
| Method4 (f : expr -> expr -> expr -> measure -> M form)
| Method5 (f : expr -> expr -> expr -> expr -> measure -> M form)
| MethodS0 (f : expr -> expr -> option expr -> measure -> M form)
| MethodT (f : expr -> M tensors).

Definition is_abstract (m : method) : bool :=
  if m is AbstractMethod then true else false.

Fixpoint find_method (name : string) (d : seq (string * method))
    : option method :=
  match d with
  | [::] => None
  | (k, m) :: d' => if String.eqb name k then Some m else find_method name d'
  end.

(** ** The class [MaterialModel] and its three subclasses *)

Section Material.

(** Geometric dimension of the mesh the fields live on: [grad] appends it
    to the shape of its operand. *)
Variable gdim : nat.

(** The attribute [ufl_shape] of an expression. *)
Fixpoint ufl_shape (e : expr) : seq nat :=
  match e with
  | Coefficient _ shape => shape
  | Constant _ | ScalarValue _ => [::]
  | Identity n => [:: n; n]
  | Grad f => ufl_shape f ++ [:: gdim]
  | Det _ | Tr _ | Pow _ _ | Inner _ _ => [::]
  | Inv A | Neg A => ufl_shape A
  | Transpose A => rev (ufl_shape A)
  | Add a _ | Sub a _ | Div a _ => ufl_shape a
  | Mul a b =>
      match ufl_shape a, ufl_shape b with
      | [::], sb => sb
      | sa, [::] => sa
      | sa, sb => take (size sa).-1 sa ++ behead sb
      end
  end.

(** [MaterialModel.__init__(self, rho=Constant(0), **props)]. *)
Definition MaterialModel_init (c : class) (rho : option expr)
    (props : seq (string * expr)) : instance :=
  {| ob_class := c;
     rho := if rho is Some r then r else Constant 0;
     props := props |}.

Definition accelerationResidual (du_dtt v : expr) (dx : measure) : M form :=
  rho <- self_rho ;;
  ret ((rho * Inner du_dtt v)%ufl *d dx).

Definition massDampingResidual (du_dt c v : expr) (dx : measure) : M form :=
  rho <- self_rho ;;
  ret ((rho * c * Inner du_dt v)%ufl *d dx).

Definition bodyforceResidual (f v : expr) (dx : measure) : M form :=
  rho <- self_rho ;;
  ret ((- rho * Inner f v)%ufl *d dx).

Definition tractionBCResidual (h v : expr) (ds : measure) : M form :=
  ret ((- Inner v h)%ufl *d ds).

Definition penaltyWeakBCResidual (u v g beta : expr) (ds : measure) : M form :=
  ret ((- Inner (beta * (u - g)) v)%ufl *d ds).

(** [getBasicTensors] as the tree its lines build; the operand checks
    that UFL makes while the lines run are replayed by
    [getBasicTensors_checked] below. *)
Definition getBasicTensors (u : expr) : M tensors :=
  let nsd := if ufl_shape u is [::] then 0%N else head 0%N (ufl_shape u) in
  let Id := Identity nsd in
  let F := (Grad u + Id)%ufl in
  let J := Det F in
  let C := (F^T * F)%ufl in
  let E := (ScalarValue (1 / 2%:Q) * (C - Id))%ufl in
  ret (Id, F, J, C, E).

(** UFL builds [a + b] and [a - b] as a sum and refuses operands of
    different shapes. *)
Definition shape_mismatch : string :=
  "Can't add expressions with different shapes.".

Definition ufl_add (a b : expr) : M expr :=
  if ufl_shape a == ufl_shape b then ret (a + b)%ufl
  else raise (UFLException shape_mismatch).

Definition ufl_sub (a b : expr) : M expr :=
  if ufl_shape a == ufl_shape b then ret (a - b)%ufl
  else raise (UFLException shape_mismatch).

(** [getBasicTensors] line by line, with the sums checked as UFL checks
    them: [F = grad(u) + I] raises unless [grad(u)] has the shape of [I]. *)
Definition getBasicTensors_checked (u : expr) : M tensors :=
  let nsd := if ufl_shape u is [::] then 0%N else head 0%N (ufl_shape u) in
  let Id := Identity nsd in
  F <- ufl_add (Grad u) Id ;;
  let J := Det F in
  let C := (F^T * F)%ufl in
  D <- ufl_sub C Id ;;
  let E := (ScalarValue (1 / 2%:Q) * D)%ufl in
  ret (Id, F, J, C, E).

(** The kinematic tensors in the words of the specification: the spatial
    dimension is 0 for a displacement of rank 0 and the size of the first
    axis otherwise; [I] is the identity of that size, [F = grad u + I],
    [J = det F], [C = F^T F] and [E = (C - I) / 2]. *)
Definition spatial_dimension (u : expr) : nat :=
  match ufl_shape u with
  | [::] => 0%N
  | n :: _ => n
  end.

Definition deformation_gradient (u : expr) : expr :=
  (Grad u + Identity (spatial_dimension u))%ufl.

Definition jacobian (u : expr) : expr := Det (deformation_gradient u).

Definition right_cauchy_green (u : expr) : expr :=
  ((deformation_gradient u)^T * deformation_gradient u)%ufl.

Definition green_lagrange (u : expr) : expr :=
  (ScalarValue (1 / 2%:Q)
   * (right_cauchy_green u - Identity (spatial_dimension u)))%ufl.

Definition kinematic_tensors (u : expr) : tensors :=
  (Identity (spatial_dimension u), deformation_gradient u, jacobian u,
   right_cauchy_green u, green_lagrange u).

(** *** StVenantKirchoff

    Each [interiorResidual] is cut in two at its [return] line: the first
    part delivers the local variables [F] and [S], the second contracts
    them with the gradient of the test function.  The right-hand side of
    the assignment to [S] is a definition of its own, a function of the
    values it reads.  ([I] and [S] are
    constructors of [True] and [nat]: in patterns they are written [Id]
    and [S_].) *)

Definition StVenantKirchoff_stress (kappa mu Id E : expr) : expr :=
  (kappa * Tr E * Id
   + ScalarValue 2%:Q * mu * (E - Tr E * Id / ScalarValue 3%:Q))%ufl.

Definition StVenantKirchoff_S (u : expr) : M (expr * expr) :=
  '(Id, F, _, _, E) <- getBasicTensors u ;;
  kappa <- self_props "kappa" ;;
  mu <- self_props "mu" ;;
  let S := StVenantKirchoff_stress kappa mu Id E in
  ret (F, S).

Definition StVenantKirchoff_interiorResidual (u v : expr) (dx : measure)
    : M form :=
  '(F, S_) <- StVenantKirchoff_S u ;;
  ret (Inner (F * S_) (Grad v) *d dx).

(** *** NeoHookean *)

Definition NeoHookean_stress (mu kappa Id J C nsd : expr) : expr :=
  (mu * Pow J (ScalarValue (- 2%:Q / 3%:Q))
     * (Id - (Tr C + (ScalarValue 3%:Q - nsd)) / ScalarValue 3%:Q * Inv C)
   + kappa / ScalarValue 2%:Q
     * (Pow J (ScalarValue 2%:Q) - ScalarValue 1) * Inv C)%ufl.

Definition NeoHookean_S (u : expr) (S0 : option expr)
    : M (expr * expr * expr) :=
  '(Id, F, J, C, _) <- getBasicTensors u ;;
  let nsd := Tr Id in
  let S0 := if S0 is Some s then s else (Constant 0 * Id)%ufl in
  mu <- self_props "mu" ;;
  kappa <- self_props "kappa" ;;
  let S := NeoHookean_stress mu kappa Id J C nsd in
  ret (F, S, S0).

(** The reference stress [S0] after the [if]: the argument, or the zero
    tensor [Constant(0)*I] when it was omitted. *)
Definition NeoHookean_S0 (u : expr) (S0 : option expr) : expr :=
  if S0 is Some s then s
  else (Constant 0 * Identity (spatial_dimension u))%ufl.

Definition NeoHookean_interiorResidual (u v : expr) (S0 : option expr)
    (dx : measure) : M form :=
  '(F, S_, S0) <- NeoHookean_S u S0 ;;
  ret (Inner (F * (S_ + S0)) (Grad v) *d dx).

(** *** JacobianStiffening *)

Definition JacobianStiffening_moduli (J_M : expr) : M (expr * expr) :=
  let fictitious_E := Constant 1 in
  let fictitious_nu := Constant (3%:Q / 10%:Q) in
  p <- self_props "power_J_M" ;;
  let K := bulkModulus (fictitious_E / Pow J_M p)%ufl fictitious_nu in
  p <- self_props "power_J_M" ;;
  let mu := shearModulus (fictitious_E / Pow J_M p)%ufl fictitious_nu in
  ret (K, mu).

Definition JacobianStiffening_stress (K mu Id E : expr) : expr :=
  (K * Tr E * Id
   + ScalarValue 2%:Q * mu * (E - Tr E * Id / ScalarValue 3%:Q))%ufl.

Definition JacobianStiffening_S (u J_M : expr) : M (expr * expr) :=
  '(Id, F, J, _, E) <- getBasicTensors u ;;
  '(K, mu) <- JacobianStiffening_moduli J_M ;;
  let S := JacobianStiffening_stress K mu Id E in
  ret (F, S).

Definition JacobianStiffening_interiorResidual (u v J_M : expr)
    (dx : measure) : M form :=
  '(F, S_) <- JacobianStiffening_S u J_M ;;
  ret (Inner (F * S_) (Grad v) *d dx).

(** *** Class dictionaries, attribute lookup and instantiation

    [class_dict] lists what each class body defines, in source order.
    Attribute lookup walks the method resolution order; [abstractmethods]
    is the set [ABCMeta] computes when the class is created, and
    [instantiate] is the call [cls(rho, **props)]. *)

Definition bases (c : class) : seq class :=
  match c with
  | MaterialModel => [::]
  | StVenantKirchoff | NeoHookean | JacobianStiffening => [:: MaterialModel]
  end.

Definition class_dict (c : class) : seq (string * method) :=
  match c with
  | MaterialModel =>
      [:: ("__init__"%string, Constructor MaterialModel_init);
          ("interiorResidual"%string, AbstractMethod);
          ("accelerationResidual"%string, Method3 accelerationResidual);
          ("massDampingResidual"%string, Method4 massDampingResidual);
          ("bodyforceResidual"%string, Method3 bodyforceResidual);
          ("tractionBCResidual"%string, Method3 tractionBCResidual);
          ("penaltyWeakBCResidual"%string, Method5 penaltyWeakBCResidual);
          ("getBasicTensors"%string, MethodT getBasicTensors)]
  | StVenantKirchoff =>
      [:: ("interiorResidual"%string,
           Method3 StVenantKirchoff_interiorResidual)]
  | NeoHookean =>
      [:: ("interiorResidual"%string, MethodS0 NeoHookean_interiorResidual)]
  | JacobianStiffening =>
      [:: ("interiorResidual"%string,
           Method4 JacobianStiffening_interiorResidual)]
  end.

Definition mro (c : class) : seq class := c :: bases c.

(** The three concrete laws. *)
Definition is_law (c : class) : bool :=
  match c with
  | MaterialModel => false
  | StVenantKirchoff | NeoHookean | JacobianStiffening => true
  end.

Fixpoint getattr_in (cs : seq class) (name : string) : option method :=
  match cs with
  | [::] => None
  | c :: cs' =>
      if find_method name (class_dict c) is Some m then Some m
      else getattr_in cs' name
  end.

Definition getattr (c : class) (name : string) : option method :=
  getattr_in (mro c) name.

Definition own_abstracts (c : class) : seq string :=
  [seq kv.1 | kv <- class_dict c & is_abstract kv.2].

(** Every base in this module is a root class, so the abstract names a
    class inherits are the ones its bases declare themselves. *)
Definition abstractmethods (c : class) : seq string :=
  own_abstracts c
  ++ [seq n <- flatten [seq own_abstracts b | b <- bases c]
      | if getattr c n is Some m then is_abstract m else false].

Definition instantiate (c : class) (rho : option expr)
    (props : seq (string * expr)) : result instance :=
  match abstractmethods c with
  | [::] =>
      match getattr c "__init__" with
      | Some (Constructor init) => inr (init c rho props)
      | _ => inl (AttributeError "__init__")
      end
  | _ :: _ => inl (TypeError "Can't instantiate abstract class")
  end.

(** A method, whatever its arguments, leaves the object unchanged. *)
Definition method_frame (m : method) : Prop :=
  match m with
  | Constructor _ | AbstractMethod => True
  | Method3 f => forall a b m, frame_preserving (f a b m)
  | Method4 f => forall a b c m, frame_preserving (f a b c m)
  | Method5 f => forall a b c d m, frame_preserving (f a b c d m)
  | MethodS0 f => forall a b S0 m, frame_preserving (f a b S0 m)
  | MethodT f => forall u, frame_preserving (f u)
  end.

(** [self.name(...)]: the method is looked up in the class of [self]. *)
Definition call3 (name : string) (a b : expr) (m : measure) : M form :=
  fun self =>
    match getattr (ob_class self) name with
    | Some (Method3 f) => f a b m self
    | Some _ => (inl (TypeError name), self)
    | None => (inl (AttributeError name), self)
    end.

Definition call4 (name : string) (a b c : expr) (m : measure) : M form :=
  fun self =>
    match getattr (ob_class self) name with
    | Some (Method4 f) => f a b c m self
    | Some _ => (inl (TypeError name), self)
    | None => (inl (AttributeError name), self)
    end.

Definition call5 (name : string) (a b c d : expr) (m : measure) : M form :=
  fun self =>
    match getattr (ob_class self) name with
    | Some (Method5 f) => f a b c d m self
    | Some _ => (inl (TypeError name), self)
    | None => (inl (AttributeError name), self)
    end.

Definition callS0 (name : string) (a b : expr) (S0 : option expr)
    (m : measure) : M form :=
  fun self =>
    match getattr (ob_class self) name with
    | Some (MethodS0 f) => f a b S0 m self
    | Some _ => (inl (TypeError name), self)
    | None => (inl (AttributeError name), self)
    end.

Definition callT (name : string) (u : expr) : M tensors :=
  fun self =>
    match getattr (ob_class self) name with
    | Some (MethodT f) => f u self
    | Some _ => (inl (TypeError name), self)
    | None => (inl (AttributeError name), self)
    end.

End Material.


(** ** Pointwise meaning of expressions

    An expression denotes, at a point of the mesh, a scalar, a vector or a
    matrix over an ordered field [R].  The environment gives the value and
    the gradient of every coefficient at that point.  Operands of the wrong
    shape, division by zero, the inverse of a singular matrix and a power
    outside the domain of the power function have no meaning ([None]).
    The power function of the number system is a parameter. *)

Section Semantics.

Variable R : numFieldType.
Variable rpow : R -> R -> option R.
Variable gdim : nat.

Inductive value : Type :=
| VScal (a : R)
| VVec (n : nat) (x : 'cV[R]_n)
| VMat (r c : nat) (A : 'M[R]_(r, c)).

Definition shape_of (v : value) : seq nat :=
  match v with
  | VScal _ => [::]
  | VVec n _ => [:: n]
  | VMat r c _ => [:: r; c]
  end.

Record env : Type := Env {
  coef : string -> option value;
  dcoef : string -> option value
}.

(** A matrix seen at other dimensions, when they agree. *)
Definition mx_cast (r c r' c' : nat) (A : 'M[R]_(r, c))
    : option 'M[R]_(r', c') :=
  match r =P r', c =P c' with
  | ReflectT er, ReflectT ec => Some (castmx (er, ec) A)
  | _, _ => None
  end.

Definition vneg (v : value) : value :=
  match v with
  | VScal a => VScal (- a)
  | VVec _ x => VVec (- x)
  | VMat _ _ A => VMat (- A)
  end.

Definition vscale (a : R) (v : value) : value :=
  match v with
  | VScal b => VScal (a * b)
  | VVec _ x => VVec (a *: x)
  | VMat _ _ A => VMat (a *: A)
  end.

Definition vadd (x y : value) : option value :=
  match x, y with
  | VScal a, VScal b => Some (VScal (a + b))
  | VVec n x, VVec _ y => omap (fun y' => VVec (x + y')) (mx_cast n 1 y)
  | VMat r c A, VMat _ _ B => omap (fun B' => VMat (A + B')) (mx_cast r c B)
  | _, _ => None
  end.

Definition vsub (x y : value) : option value := vadd x (vneg y).

(** [a * b]: scaling when an operand is a scalar, otherwise the
    matrix-matrix or matrix-vector product. *)
Definition vmul (x y : value) : option value :=
  match x, y with
  | VScal a, _ => Some (vscale a y)
  | _, VScal b => Some (vscale b x)
  | VMat r c A, VMat _ c' B =>
      omap (fun B' => VMat (A *m B')) (mx_cast c c' B)
  | VMat r c A, VVec _ x => omap (fun x' => VVec (A *m x')) (mx_cast c 1 x)
  | _, _ => None
  end.

Definition vdiv (x y : value) : option value :=
  match y with
  | VScal b => if b == 0 then None else Some (vscale b^-1 x)
  | _ => None
  end.

Definition vpow (x y : value) : option value :=
  match x, y with
  | VScal a, VScal b => omap VScal (rpow a b)
  | _, _ => None
  end.

Definition vdet (x : value) : option value :=
  match x with
  | VMat r _ A => omap (fun A' : 'M_r => VScal (\det A')) (mx_cast r r A)
  | _ => None
  end.

Definition vtr (x : value) : option value :=
  match x with
  | VMat r _ A => omap (fun A' : 'M_r => VScal (\tr A')) (mx_cast r r A)
  | _ => None
  end.

Definition vinv (x : value) : option value :=
  match x with
  | VMat r _ A =>
      obind (fun A' : 'M_r =>
               if A' \in unitmx then Some (VMat (invmx A')) else None)
            (mx_cast r r A)
  | _ => None
  end.

Definition vtranspose (x : value) : option value :=
  match x with
  | VMat _ _ A => Some (VMat A^T)
  | _ => None
  end.

Definition vinner (x y : value) : option value :=
  match x, y with
  | VScal a, VScal b => Some (VScal (a * b))
  | VVec n x, VVec _ y =>
      omap (fun y' => VScal (\tr (x *m y'^T))) (mx_cast n 1 y)
  | VMat r c A, VMat _ _ B =>
      omap (fun B' => VScal (\tr (A *m B'^T))) (mx_cast r c B)
  | _, _ => None
  end.

Definition obind2 {A B C} (f : A -> B -> option C) (x : option A)
    (y : option B) : option C :=
  if x is Some a then if y is Some b then f a b else None else None.

Fixpoint eval (p : env) (e : expr) : option value :=
  match e with
  | Coefficient x sh =>
      if coef p x is Some v then
        if shape_of v == sh then Some v else None
      else None
  | Constant c | ScalarValue c => Some (VScal (ratr c))
  | Identity n => Some (VMat (1%:M : 'M_n))
  | Grad f =>
      match f with
      | Coefficient x sh =>
          if dcoef p x is Some g then
            if shape_of g == sh ++ [:: gdim] then Some g else None
          else None
      | _ => None
      end
  | Det A => obind vdet (eval p A)
  | Tr A => obind vtr (eval p A)
  | Inv A => obind vinv (eval p A)
  | Transpose A => obind vtranspose (eval p A)
  | Neg a => omap vneg (eval p a)
  | Add a b => obind2 vadd (eval p a) (eval p b)
  | Sub a b => obind2 vsub (eval p a) (eval p b)
  | Mul a b => obind2 vmul (eval p a) (eval p b)
  | Div a b => obind2 vdiv (eval p a) (eval p b)
  | Pow a b => obind2 vpow (eval p a) (eval p b)
  | Inner a b => obind2 vinner (eval p a) (eval p b)
  end.

(** A measure is read as a quadrature rule: weighted points, each with
    the environment that holds there.  The value of a form is the weighted
    sum of its integrand, which must be a scalar at every point. *)
Definition quadrature : Type := measure -> seq (R * env).

Fixpoint integrate (e : expr) (pts : seq (R * env)) : option R :=
  match pts with
  | [::] => Some 0
  | (w, p) :: pts' =>
      match eval p e, integrate e pts' with
      | Some (VScal a), Some s => Some (w * a + s)
      | _, _ => None
      end
  end.

Definition eval_form (q : quadrature) (f : form) : option R :=
  let: Integral e m := f in integrate e (q m).

(** Two calls agree: they raise the same exception, or return forms with
    the same value. *)
Definition same_value (q : quadrature) (r1 r2 : result form) : Prop :=
  match r1, r2 with
  | inr f1, inr f2 => eval_form q f1 = eval_form q f2
  | inl e1, inl e2 => e1 = e2
  | _, _ => False
  end.

(** The St. Venant-Kirchhoff stress of a strain matrix [A], for bulk
    modulus [k] and shear modulus [m]. *)
Definition svk_value (n : nat) (k m : R) (A : 'M[R]_n) : 'M[R]_n :=
  (k * \tr A) *: 1%:M + (2%:R * m) *: (A - 3%:R^-1 *: (\tr A *: 1%:M)).

(** Properties of an expression at a point, and at every point of a
    quadrature rule. *)
Definition denotes_scalar (a : R) (e : expr) (p : env) : Prop :=
  eval p e = Some (VScal a).

Definition denotes_matrix (n : nat) (A : 'M[R]_n) (e : expr) (p : env)
    : Prop :=
  eval p e = Some (VMat A).

Definition is_scalar (e : expr) (p : env) : Prop :=
  exists a : R, denotes_scalar a e p.


(** The displacement vanishes: so does its gradient. *)
Definition zero_displacement (n : nat) (u : expr) (p : env) : Prop :=
  eval p u = Some (VVec (0 : 'cV[R]_n)) /\ denotes_matrix (0 : 'M[R]_n) (Grad u) p.


Fixpoint at_points (P : env -> Prop) (pts : seq (R * env)) : Prop :=
  match pts with
  | [::] => True
  | (_, p) :: pts' => P p /\ at_points P pts'
  end.

End Semantics.

(** ** A concrete setting: rational numbers on a two-dimensional mesh

    The rationals with a power function defined for integer exponents and
    for base 1, one quadrature point where the field [u] and its gradient
    vanish and the test function [v] has the identity as gradient, and one
    object of each law. *)

Definition rat_pow (x y : rat) : option rat :=
  if denq y == 1 then Some (x ^ numq y)
  else if x == 1 then Some 1 else None.

Definition example_env : env rat :=
  {| coef := fun x =>
       if String.eqb x "u" then Some (VVec (0 : 'cV[rat]_2))
       else if String.eqb x "v" then Some (VVec (0 : 'cV[rat]_2))
       else None;
     dcoef := fun x =>
       if String.eqb x "u" then Some (VMat (0 : 'M[rat]_2))
       else if String.eqb x "v" then Some (VMat (1%:M : 'M[rat]_2))
       else None |}.

Definition example_quadrature : quadrature rat :=
  fun _ => [:: (1, example_env)].

Definition example_u : expr := Coefficient "u" [:: 2%N].
Definition example_v : expr := Coefficient "v" [:: 2%N].

Definition example_svk : instance :=
  {| ob_class := StVenantKirchoff; rho := Constant 1;
     props := [:: ("kappa"%string, ScalarValue 2%:Q);
                  ("mu"%string, ScalarValue 1)] |}.

Definition example_nh : instance :=
  {| ob_class := NeoHookean; rho := Constant 1;
     props := [:: ("kappa"%string, ScalarValue 2%:Q);
                  ("mu"%string, ScalarValue 1)] |}.

Definition example_js : instance :=
  {| ob_class := JacobianStiffening; rho := Constant 1;
     props := [:: ("power_J_M"%string, ScalarValue 2%:Q)] |}.

Definition example_bare : instance :=
  {| ob_class := StVenantKirchoff; rho := Constant 1; props := [::] |}.

(** A power function that is zero everywhere, a point where the gradient
    of [u] is minus the identity (the body collapses to a point), and an
    object built without density or properties. *)
Definition zero_pow (x y : rat) : option rat := Some 0.

Definition collapse_env : env rat :=
  {| coef := fun x =>
       if String.eqb x "u" then Some (VVec (0 : 'cV[rat]_2)) else None;
     dcoef := fun x =>
       if String.eqb x "u" then Some (VMat (- 1%:M : 'M[rat]_2)) else None |}.

Definition example_default : instance :=
  {| ob_class := StVenantKirchoff; rho := Constant 0; props := [::] |}.

(** ** Facts about the meaning of expressions *)

Section SemanticsFacts.

Variable R : numFieldType.
Variable rpow : R -> R -> option R.
Variable gdim : nat.

Notation value := (value R).
Notation env := (env R).
Notation eval := (eval rpow gdim).

Lemma mx_castK r c (A : 'M[R]_(r, c)) : mx_cast r c A = Some A.
Proof.
rewrite /mx_cast; case: eqP => // er; case: eqP => // ec.
by rewrite (eq_axiomK er) (eq_axiomK ec) castmx_id.
Qed.

Lemma mx_cast_neq r c r' c' (A : 'M[R]_(r, c)) :
  (r, c) <> (r', c') -> mx_cast r' c' A = None.
Proof.
rewrite /mx_cast => ne; case: eqP => // er; case: eqP => // ec.
by case: ne; rewrite er ec.
Qed.

Lemma vinnerC (x y : value) : vinner x y = vinner y x.
Proof.
case: x => [a|n x|r c A]; case: y => [b|m y|r' c' B] //=.
- by rewrite mulrC.
- have [e|ne] := (n =P m).
    by subst m; rewrite !mx_castK /= -mxtrace_tr trmx_mul trmxK.
  by rewrite !mx_cast_neq // => -[e]; case: ne.
- have [e|ne] := ((r, c) =P (r', c')).
    case: e => ? ?; subst r' c'.
    by rewrite !mx_castK /= -mxtrace_tr trmx_mul trmxK.
  by rewrite !mx_cast_neq // => e; case: ne.
Qed.

Lemma eval_Add p a b :
  eval p (Add a b) = obind2 (@vadd R) (eval p a) (eval p b).
Proof. by []. Qed.

Lemma eval_Sub p a b :
  eval p (Sub a b) = obind2 (@vsub R) (eval p a) (eval p b).
Proof. by []. Qed.

Lemma eval_Mul p a b :
  eval p (Mul a b) = obind2 (@vmul R) (eval p a) (eval p b).
Proof. by []. Qed.

Lemma eval_Div p a b :
  eval p (Div a b) = obind2 (@vdiv R) (eval p a) (eval p b).
Proof. by []. Qed.

Lemma eval_Pow p a b :
  eval p (Pow a b) = obind2 (vpow rpow) (eval p a) (eval p b).
Proof. by []. Qed.

Lemma eval_Inner p a b :
  eval p (Inner a b) = obind2 (@vinner R) (eval p a) (eval p b).
Proof. by []. Qed.

Lemma eval_Det p a : eval p (Det a) = obind (@vdet R) (eval p a).
Proof. by []. Qed.

Lemma eval_Tr p a : eval p (Tr a) = obind (@vtr R) (eval p a).
Proof. by []. Qed.

Lemma eval_Inv p a : eval p (Inv a) = obind (@vinv R) (eval p a).
Proof. by []. Qed.

Lemma eval_Transpose p a :
  eval p (Transpose a) = obind (@vtranspose R) (eval p a).
Proof. by []. Qed.

Lemma eval_Neg p a : eval p (Neg a) = omap (@vneg R) (eval p a).
Proof. by []. Qed.

Lemma eval_Constant p c : eval p (Constant c) = Some (VScal (ratr c)).
Proof. by []. Qed.

Lemma eval_ScalarValue p c : eval p (ScalarValue c) = Some (VScal (ratr c)).
Proof. by []. Qed.

Lemma eval_Identity p n : eval p (Identity n) = Some (VMat (1%:M : 'M[R]_n)).
Proof. by []. Qed.

Lemma grad_shape p u g :
  eval p (Grad u) = Some g -> ufl_shape gdim u ++ [:: gdim] = shape_of g.
Proof.
case: u => //= x sh; case: (dcoef p x) => // g'.
by case: eqP => // <- [<-].
Qed.

Lemma getBasicTensorsE u self :
  getBasicTensors gdim u self = (inr (kinematic_tensors gdim u), self).
Proof.
rewrite /getBasicTensors /kinematic_tensors /green_lagrange.
rewrite /right_cauchy_green /jacobian /deformation_gradient.
by rewrite /spatial_dimension; case: (ufl_shape gdim u).
Qed.

Lemma grad_spatial_dimension p u n (H : 'M[R]_n) :
  eval p (Grad u) = Some (VMat H) -> spatial_dimension gdim u = n.
Proof.
move/grad_shape => /=; rewrite /spatial_dimension.
by case: (ufl_shape gdim u) => [|a [|b s]] //= [].
Qed.

(** The meaning of the kinematic tensors where the displacement has an
    n-by-n gradient [H]. *)
Lemma eval_deformation_gradient p u n (H : 'M[R]_n) :
  eval p (Grad u) = Some (VMat H) ->
  eval p (deformation_gradient gdim u) = Some (VMat (H + 1%:M)).
Proof.
move=> Hu; rewrite /deformation_gradient (grad_spatial_dimension Hu).
by rewrite eval_Add Hu eval_Identity /= mx_castK.
Qed.

Lemma eval_jacobian p u n (H : 'M[R]_n) :
  eval p (Grad u) = Some (VMat H) ->
  eval p (jacobian gdim u) = Some (VScal (\det (H + 1%:M))).
Proof.
move=> Hu; rewrite /jacobian eval_Det (eval_deformation_gradient Hu) /=.
by rewrite mx_castK.
Qed.

Lemma eval_right_cauchy_green p u n (H : 'M[R]_n) :
  eval p (Grad u) = Some (VMat H) ->
  eval p (right_cauchy_green gdim u)
  = Some (VMat ((H + 1%:M)^T *m (H + 1%:M))).
Proof.
move=> Hu; rewrite /right_cauchy_green eval_Mul eval_Transpose.
by rewrite (eval_deformation_gradient Hu) /= mx_castK.
Qed.

Lemma eval_green_lagrange p u n (H : 'M[R]_n) :
  eval p (Grad u) = Some (VMat H) ->
  eval p (green_lagrange gdim u)
  = Some (VMat (ratr (1 / 2%:Q) *: ((H + 1%:M)^T *m (H + 1%:M) - 1%:M))).
Proof.
move=> Hu; rewrite /green_lagrange eval_Mul eval_Sub.
rewrite (eval_right_cauchy_green Hu) (grad_spatial_dimension Hu).
by rewrite eval_ScalarValue eval_Identity /= mx_castK.
Qed.

Lemma ratr_natQ (n : nat) : ratr n%:Q = n%:R :> R.
Proof. by rewrite ratr_int. Qed.

Lemma ratr_nat_neq0 (n : nat) : ratr n.+1%:Q != 0 :> R.
Proof. by rewrite ratr_natQ pnatr_eq0. Qed.

Lemma eval_StVenantKirchoff_stress p kappa mu Id E n k m (A : 'M[R]_n) :
  denotes_scalar rpow gdim k kappa p -> denotes_scalar rpow gdim m mu p ->
  denotes_matrix rpow gdim (1%:M : 'M_n) Id p ->
  denotes_matrix rpow gdim A E p ->
  denotes_matrix rpow gdim (svk_value k m A)
    (StVenantKirchoff_stress kappa mu Id E) p.
Proof.
rewrite /denotes_scalar /denotes_matrix /StVenantKirchoff_stress.
move=> Hk Hm HI HE.
rewrite eval_Add !eval_Mul eval_Sub eval_Div !eval_Mul !eval_Tr.
rewrite Hk Hm HI HE !eval_ScalarValue /= !mx_castK /=.
rewrite (negbTE (ratr_nat_neq0 2)) /= mx_castK /= mx_castK /=.
by rewrite !ratr_natQ.
Qed.

Lemma svk_value0 n (k m : R) : svk_value k m (0 : 'M[R]_n) = 0.
Proof.
by rewrite /svk_value mxtrace0 mulr0 !scale0r scaler0 subr0 scaler0 addr0.
Qed.

Lemma svk_valueZ n (k m a : R) (A : 'M[R]_n) :
  svk_value k m (a *: A) = a *: svk_value k m A.
Proof.
apply/matrixP => i j; rewrite /svk_value mxtraceZ !mxE.
by case: (i == j); rewrite /= ?mulr1n ?mulr0n; ring.
Qed.

Lemma svk_valueD n (k m : R) (A B : 'M[R]_n) :
  svk_value k m (A + B) = svk_value k m A + svk_value k m B.
Proof.
apply/matrixP => i j; rewrite /svk_value mxtraceD !mxE.
by case: (i == j); rewrite /= ?mulr1n ?mulr0n; ring.
Qed.

Lemma eval_firstLameParameter p E nu (e v : R) :
  denotes_scalar rpow gdim e E p -> denotes_scalar rpow gdim v nu p ->
  (1 + v) * (1 - 2%:R * v) != 0 ->
  denotes_scalar rpow gdim (firstLameParameter e v)
    (firstLameParameter E nu) p.
Proof.
rewrite /denotes_scalar /firstLameParameter /= => He Hv ne.
rewrite He Hv /= !ratr_natQ rmorph1 (negbTE ne).
by rewrite mulrC.
Qed.

Lemma eval_secondLameParameter p E nu (e v : R) :
  denotes_scalar rpow gdim e E p -> denotes_scalar rpow gdim v nu p ->
  2%:R * (1 + v) != 0 ->
  denotes_scalar rpow gdim (secondLameParameter e v)
    (secondLameParameter E nu) p.
Proof.
rewrite /denotes_scalar /secondLameParameter /= => He Hv ne.
rewrite He Hv /= !ratr_natQ rmorph1 (negbTE ne).
by rewrite mulrC.
Qed.

Lemma eval_shearModulus p E nu (e v : R) :
  denotes_scalar rpow gdim e E p -> denotes_scalar rpow gdim v nu p ->
  2%:R * (1 + v) != 0 ->
  denotes_scalar rpow gdim (shearModulus e v) (shearModulus E nu) p.
Proof. exact: eval_secondLameParameter. Qed.

Lemma eval_bulkModulus p E nu (e v : R) :
  denotes_scalar rpow gdim e E p -> denotes_scalar rpow gdim v nu p ->
  (1 + v) * (1 - 2%:R * v) != 0 -> 2%:R * (1 + v) != 0 ->
  denotes_scalar rpow gdim (bulkModulus e v) (bulkModulus E nu) p.
Proof.
move=> He Hv ne1 ne2; rewrite /denotes_scalar /bulkModulus.
rewrite [padd]/= [pmul]/= [lit]/= eval_Add eval_Mul eval_ScalarValue.
rewrite (eval_firstLameParameter He Hv ne1).
by rewrite (eval_secondLameParameter He Hv ne2).
Qed.

(** The fictitious Poisson ratio 0.3 keeps both denominators away from
    zero. *)
Lemma ratr_fictitious_nu : ratr (3%:Q / 10%:Q) = 3%:R / 10%:R :> R.
Proof. by rewrite fmorph_div !rmorph_int. Qed.

Lemma fictitious_nu_first :
  (1 + ratr (3%:Q / 10%:Q)) * (1 - 2%:R * ratr (3%:Q / 10%:Q)) != 0 :> R.
Proof.
have -> : (1 + ratr (3%:Q / 10%:Q)) * (1 - 2%:R * ratr (3%:Q / 10%:Q))
          = 52%:R / 100%:R :> R.
  by rewrite ratr_fictitious_nu; field.
by rewrite mulf_neq0 ?invr_neq0 ?pnatr_eq0.
Qed.

Lemma fictitious_nu_second : 2%:R * (1 + ratr (3%:Q / 10%:Q)) != 0 :> R.
Proof.
have -> : 2%:R * (1 + ratr (3%:Q / 10%:Q)) = 26%:R / 10%:R :> R.
  by rewrite ratr_fictitious_nu; field.
by rewrite mulf_neq0 ?invr_neq0 ?pnatr_eq0.
Qed.

Lemma eval_fictitious_modulus p J_M pw (d : R) :
  denotes_scalar rpow gdim d (Pow J_M pw) p -> d != 0 ->
  denotes_scalar rpow gdim (1 / d) (Constant 1 / Pow J_M pw)%ufl p.
Proof.
rewrite /denotes_scalar eval_Div eval_Constant => -> ne /=.
by rewrite (negbTE ne) rmorph1 mulr1 div1r.
Qed.

Lemma JacobianStiffening_moduliE J_M pw self :
  lookup "power_J_M" (props self) = Some pw ->
  JacobianStiffening_moduli J_M self
  = (inr (bulkModulus (Constant 1 / Pow J_M pw)%ufl
            (Constant (3%:Q / 10%:Q)),
          shearModulus (Constant 1 / Pow J_M pw)%ufl
            (Constant (3%:Q / 10%:Q))), self).
Proof.
move=> H; rewrite /JacobianStiffening_moduli /bind /self_props H /=.
by rewrite H.
Qed.

Lemma eval_JacobianStiffening_moduli p J_M pw (d : R) :
  denotes_scalar rpow gdim d (Pow J_M pw) p -> d != 0 ->
  denotes_scalar rpow gdim (bulkModulus (1 / d) (ratr (3%:Q / 10%:Q)))
    (bulkModulus (Constant 1 / Pow J_M pw)%ufl (Constant (3%:Q / 10%:Q))) p
  /\ denotes_scalar rpow gdim (shearModulus (1 / d) (ratr (3%:Q / 10%:Q)))
       (shearModulus (Constant 1 / Pow J_M pw)%ufl
          (Constant (3%:Q / 10%:Q))) p.
Proof.
move=> Hd ne; have HE := eval_fictitious_modulus Hd ne.
have Hnu : denotes_scalar rpow gdim (ratr (3%:Q / 10%:Q))
             (Constant (3%:Q / 10%:Q)) p by [].
split.
  exact: (eval_bulkModulus HE Hnu fictitious_nu_first fictitious_nu_second).
exact: (eval_shearModulus HE Hnu fictitious_nu_second).
Qed.

Lemma at_points_impl (P Q : env -> Prop) pts :
  (forall p, P p -> Q p) -> at_points P pts -> at_points Q pts.
Proof.
move=> PQ; elim: pts => [|[w p] pts IH] //= [Pp Ppts].
by split; [exact: PQ | exact: IH].
Qed.


Lemma integrate_zero e pts :
  at_points (denotes_scalar rpow gdim 0 e) pts -> integrate rpow gdim e pts = Some 0.
Proof.
elim: pts => [|[w p] pts IH] //= [-> /IH ->].
by rewrite mulr0 addr0.
Qed.

Lemma integrate_ext e1 e2 pts :
  at_points (fun p => eval p e1 = eval p e2) pts ->
  integrate rpow gdim e1 pts = integrate rpow gdim e2 pts.
Proof. by elim: pts => [|[w p] pts IH] //= [-> /IH ->]. Qed.

(** Kinematics of a displacement with vanishing gradient. *)
Lemma zero_kinematics p u n :
  zero_displacement rpow gdim n u p ->
  [/\ denotes_matrix rpow gdim (1%:M : 'M_n)
         (Identity (spatial_dimension gdim u)) p,
      denotes_matrix rpow gdim (1%:M : 'M_n) (deformation_gradient gdim u) p,
      denotes_scalar rpow gdim 1 (jacobian gdim u) p,
      denotes_matrix rpow gdim (1%:M : 'M_n) (right_cauchy_green gdim u) p
    & denotes_matrix rpow gdim (0 : 'M_n) (green_lagrange gdim u) p].
Proof.
case=> _ Hu; rewrite /denotes_matrix /denotes_scalar.
rewrite (eval_deformation_gradient Hu) (eval_jacobian Hu).
rewrite (eval_right_cauchy_green Hu) (eval_green_lagrange Hu).
rewrite (grad_spatial_dimension Hu) eval_Identity.
by rewrite add0r det1 trmx1 mulmx1 subrr scaler0.
Qed.


(** When the first sum of [getBasicTensors] is accepted: exactly for a
    vector displacement whose size is the dimension of the mesh. *)
Lemma grad_identity_shapes u :
  (ufl_shape gdim (Grad u)
   == ufl_shape gdim
        (Identity (if ufl_shape gdim u is [::] then 0%N
                   else head 0%N (ufl_shape gdim u))))
  = (ufl_shape gdim u == [:: gdim]).
Proof.
rewrite /=; case: (ufl_shape gdim u) => [|a [|b s]] //=.
- by rewrite eqseq_cons andbF.
- by rewrite !eqseq_cons eqxx /= !andbT eq_sym.
- by rewrite !eqseq_cons andbF; case: s => [|c s]; rewrite /= !andbF.
Qed.

(** C2.  [getBasicTensors] returns the tuple (I, F, J, C, E) of the
    specification only for a vector displacement whose size is the
    dimension of the mesh (then [F] is a square matrix and no later line
    can fail).  For every other displacement the sum [grad(u) + I] of line
    78 has operands of different shapes and the call raises; in particular
    for a displacement of rank 0, where the inferred dimension is 0 and [I]
    is the identity of size 0 while [grad(u)] is a vector, no tuple is
    returned. *)
Theorem getBasicTensors_rank0_raises (u : expr) (self : instance) :
  [/\ ufl_shape gdim u = [:: gdim] ->
      getBasicTensors_checked gdim u self
      = (inr (kinematic_tensors gdim u), self)
      /\ ufl_shape gdim (deformation_gradient gdim u) = [:: gdim; gdim],
      ufl_shape gdim u <> [:: gdim] ->
      getBasicTensors_checked gdim u self
      = (inl (UFLException shape_mismatch), self)
    & ufl_shape gdim u = [::] ->
      [/\ spatial_dimension gdim u = 0%N,
          ufl_shape gdim (Grad u) = [:: gdim],
          ufl_shape gdim (Identity (spatial_dimension gdim u))
          = [:: 0%N; 0%N]
        & returned (getBasicTensors_checked gdim u) self
          = inl (UFLException shape_mismatch)]].
Proof.
have raises : ufl_shape gdim u <> [:: gdim] ->
    getBasicTensors_checked gdim u self
    = (inl (UFLException shape_mismatch), self).
  move=> ne; rewrite /getBasicTensors_checked /bind /ufl_add.
  rewrite grad_identity_shapes.
  by case: eqP.
split=> //.
- move=> Hs; rewrite /getBasicTensors_checked /bind /ufl_add /ufl_sub.
  rewrite grad_identity_shapes Hs eqxx /=.
  rewrite /kinematic_tensors /green_lagrange /right_cauchy_green /jacobian.
  rewrite /deformation_gradient /spatial_dimension /= Hs /=.
  by rewrite eqxx.
- move=> Hs; rewrite /returned raises ?Hs //.
  by rewrite /spatial_dimension /= Hs.
Qed.

Lemma eval_InnerC p a b : eval p (Inner a b) = eval p (Inner b a).
Proof.
rewrite !eval_Inner; case: (eval p a) => [x|]; case: (eval p b) => [y|] //=.
exact: vinnerC.
Qed.

(** What the shared residual methods return when called on an object of
    a concrete law. *)
Lemma law_getattr_shared c :
  is_law c ->
  [/\ getattr gdim c "accelerationResidual"
      = Some (Method3 accelerationResidual),
      getattr gdim c "massDampingResidual" = Some (Method4 massDampingResidual),
      getattr gdim c "bodyforceResidual" = Some (Method3 bodyforceResidual),
      getattr gdim c "tractionBCResidual" = Some (Method3 tractionBCResidual)
    & getattr gdim c "penaltyWeakBCResidual"
      = Some (Method5 penaltyWeakBCResidual)].
Proof. by case: c. Qed.

Lemma call_accelerationResidual self a v m :
  is_law (ob_class self) ->
  call3 gdim "accelerationResidual" a v m self
  = (inr ((rho self * Inner a v)%ufl *d m), self).
Proof. by rewrite /call3 => /law_getattr_shared [-> _ _ _ _]. Qed.

Lemma call_massDampingResidual self vdot c v m :
  is_law (ob_class self) ->
  call4 gdim "massDampingResidual" vdot c v m self
  = (inr ((rho self * c * Inner vdot v)%ufl *d m), self).
Proof. by rewrite /call4 => /law_getattr_shared [_ -> _ _ _]. Qed.

Lemma call_bodyforceResidual self f v m :
  is_law (ob_class self) ->
  call3 gdim "bodyforceResidual" f v m self
  = (inr ((- rho self * Inner f v)%ufl *d m), self).
Proof. by rewrite /call3 => /law_getattr_shared [_ _ -> _ _]. Qed.

Lemma call_tractionBCResidual self h v m :
  is_law (ob_class self) ->
  call3 gdim "tractionBCResidual" h v m self
  = (inr ((- Inner v h)%ufl *d m), self).
Proof. by rewrite /call3 => /law_getattr_shared [_ _ _ -> _]. Qed.

Lemma call_penaltyWeakBCResidual self u v g beta m :
  is_law (ob_class self) ->
  call5 gdim "penaltyWeakBCResidual" u v g beta m self
  = (inr ((- Inner (beta * (u - g)) v)%ufl *d m), self).
Proof. by rewrite /call5 => /law_getattr_shared [_ _ _ _ ->]. Qed.

(** C3.  For two objects of concrete laws with the same density, the five
    shared residual methods are the ones of [MaterialModel] (no subclass
    body rebinds their names), they return the same form on both objects,
    and the forms are [rho*inner(a,v)*dx], [rho*c*inner(vdot,v)*dx],
    [-rho*inner(f,v)*dx], [-inner(beta*(u-g),v)*ds] as written, and for the
    traction [-inner(v,h)*ds], whose value under every quadrature rule is
    that of [-inner(h,v)*ds]. *)
Theorem shared_residuals_same_for_all_laws (s1 s2 : instance) :
  is_law (ob_class s1) -> is_law (ob_class s2) -> rho s1 = rho s2 ->
  [/\ [/\ getattr gdim (ob_class s1) "accelerationResidual"
           = Some (Method3 accelerationResidual),
           getattr gdim (ob_class s1) "massDampingResidual"
           = Some (Method4 massDampingResidual),
           getattr gdim (ob_class s1) "bodyforceResidual"
           = Some (Method3 bodyforceResidual),
           getattr gdim (ob_class s1) "tractionBCResidual"
           = Some (Method3 tractionBCResidual)
         & getattr gdim (ob_class s1) "penaltyWeakBCResidual"
           = Some (Method5 penaltyWeakBCResidual)]
    & [/\ forall a v m,
        returned (call3 gdim "accelerationResidual" a v m) s1
        = returned (call3 gdim "accelerationResidual" a v m) s2
        /\ returned (call3 gdim "accelerationResidual" a v m) s1
           = inr ((rho s1 * Inner a v)%ufl *d m),
      forall vdot c v m,
        returned (call4 gdim "massDampingResidual" vdot c v m) s1
        = returned (call4 gdim "massDampingResidual" vdot c v m) s2
        /\ returned (call4 gdim "massDampingResidual" vdot c v m) s1
           = inr ((rho s1 * c * Inner vdot v)%ufl *d m),
      forall f v m,
        returned (call3 gdim "bodyforceResidual" f v m) s1
        = returned (call3 gdim "bodyforceResidual" f v m) s2
        /\ returned (call3 gdim "bodyforceResidual" f v m) s1
           = inr ((- rho s1 * Inner f v)%ufl *d m),
      forall h v m,
        [/\ returned (call3 gdim "tractionBCResidual" h v m) s1
            = returned (call3 gdim "tractionBCResidual" h v m) s2,
            returned (call3 gdim "tractionBCResidual" h v m) s1
            = inr ((- Inner v h)%ufl *d m)
          & forall q : quadrature R,
              eval_form rpow gdim q ((- Inner v h)%ufl *d m)
              = eval_form rpow gdim q ((- Inner h v)%ufl *d m)]
    & forall u v g beta m,
        returned (call5 gdim "penaltyWeakBCResidual" u v g beta m) s1
        = returned (call5 gdim "penaltyWeakBCResidual" u v g beta m) s2
        /\ returned (call5 gdim "penaltyWeakBCResidual" u v g beta m) s1
           = inr ((- Inner (beta * (u - g)) v)%ufl *d m)]].
Proof.
move=> law1 law2 Hrho; split; first exact: law_getattr_shared.
rewrite /returned; split.
- move=> a v m.
  by rewrite !call_accelerationResidual //= Hrho.
- move=> vdot c v m.
  by rewrite !call_massDampingResidual //= Hrho.
- move=> f v m.
  by rewrite !call_bodyforceResidual //= Hrho.
- move=> h v m; rewrite !call_tractionBCResidual //=; split=> // q.
  apply: integrate_ext; elim: (q m) => [|[w p] pts IH] //; split=> //.
  by rewrite !eval_Neg eval_InnerC.
- move=> u v g beta m.
  by rewrite !call_penaltyWeakBCResidual.
Qed.

Lemma instantiate_law c rho0 kw :
  is_law c ->
  instantiate gdim c rho0 kw
  = inr {| ob_class := c;
           rho := if rho0 is Some r then r else Constant 0;
           props := kw |}.
Proof. by case: c. Qed.


(** C5.  [MaterialModel] declares [interiorResidual] abstract and leaves
    it so: its set of abstract methods is not empty, and instantiating it
    raises [TypeError] whatever the arguments.  The three subclasses bind
    the name to a method and can be instantiated. *)
Theorem abstract_base_cannot_be_instantiated (rho0 : option expr)
    (kw : seq (string * expr)) :
  [/\ getattr gdim MaterialModel "interiorResidual" = Some AbstractMethod,
      abstractmethods gdim MaterialModel = [:: "interiorResidual"%string],
      instantiate gdim MaterialModel rho0 kw
      = inl (TypeError "Can't instantiate abstract class")
    & forall c, is_law c ->
        abstractmethods gdim c = [::]
        /\ exists self, instantiate gdim c rho0 kw = inr self].
Proof.
split=> // c law; split; first by case: c law.
by rewrite (instantiate_law _ _ law); eexists.
Qed.

(** The frame of a computation, along the structure of the monad. *)
Lemma frame_ret A (a : A) : frame_preserving (ret a).
Proof. by []. Qed.

Lemma frame_raise A (e : exn) : frame_preserving (@raise A e).
Proof. by []. Qed.

Lemma frame_self_rho : frame_preserving self_rho.
Proof. by []. Qed.

Lemma frame_self_props k : frame_preserving (self_props k).
Proof.
move=> self; rewrite /after /returned /self_props.
by case E: (lookup k (props self)) => [x|] /=; rewrite E.
Qed.

Lemma frame_bind A B (c : M A) (k : A -> M B) :
  frame_preserving c -> (forall a, frame_preserving (k a)) ->
  frame_preserving (bind c k).
Proof.
move=> Hc Hk self; have [Ha _] := Hc self.
rewrite /after /returned /bind in Ha *.
case E: (c self) Ha => [[e|a] self'] /= Ha; rewrite {self'}Ha in E *.
  by rewrite E.
have [Hka Hkr] := Hk a self; rewrite /after /returned in Hka Hkr.
by rewrite Hka E.
Qed.

Lemma frame_getBasicTensors u : frame_preserving (getBasicTensors gdim u).
Proof. by move=> self; rewrite /after /returned !getBasicTensorsE. Qed.

Lemma frame_accelerationResidual a v m :
  frame_preserving (accelerationResidual a v m).
Proof.
by apply: frame_bind => [|r]; [exact: frame_self_rho | exact: frame_ret].
Qed.

Lemma frame_massDampingResidual vdot c v m :
  frame_preserving (massDampingResidual vdot c v m).
Proof.
by apply: frame_bind => [|r]; [exact: frame_self_rho | exact: frame_ret].
Qed.

Lemma frame_bodyforceResidual f v m :
  frame_preserving (bodyforceResidual f v m).
Proof.
by apply: frame_bind => [|r]; [exact: frame_self_rho | exact: frame_ret].
Qed.

Lemma frame_StVenantKirchoff u v m :
  frame_preserving (StVenantKirchoff_interiorResidual gdim u v m).
Proof.
apply: frame_bind => [|[F S_]]; last exact: frame_ret.
apply: frame_bind => [|[[[[Id F] J] C] E]]; first exact: frame_getBasicTensors.
apply: frame_bind => [|kappa]; first exact: frame_self_props.
by apply: frame_bind => [|mu]; [exact: frame_self_props | exact: frame_ret].
Qed.

Lemma frame_NeoHookean u v S0 m :
  frame_preserving (NeoHookean_interiorResidual gdim u v S0 m).
Proof.
apply: frame_bind => [|[[F S_] S0']]; last exact: frame_ret.
apply: frame_bind => [|[[[[Id F] J] C] E]]; first exact: frame_getBasicTensors.
apply: frame_bind => [|mu]; first exact: frame_self_props.
by apply: frame_bind => [|kappa]; [exact: frame_self_props | exact: frame_ret].
Qed.

Lemma frame_JacobianStiffening u v J_M m :
  frame_preserving (JacobianStiffening_interiorResidual gdim u v J_M m).
Proof.
apply: frame_bind => [|[F S_]]; last exact: frame_ret.
apply: frame_bind => [|[[[[Id F] J] C] E]]; first exact: frame_getBasicTensors.
apply: frame_bind => [|[K mu]]; last exact: frame_ret.
apply: frame_bind => [|pw]; first exact: frame_self_props.
by apply: frame_bind => [|pw']; [exact: frame_self_props | exact: frame_ret].
Qed.

Lemma find_method_all (P : method -> Prop) name d m :
  foldr (fun kv acc => P kv.2 /\ acc) True d ->
  find_method name d = Some m -> P m.
Proof.
elim: d => [|[k m'] d IH] //= [Pm' Pd].
by case: (String.eqb name k) => [[<-]|]; last exact: IH.
Qed.

Lemma class_dict_frame c :
  foldr (fun kv acc => method_frame kv.2 /\ acc) True (class_dict gdim c).
Proof.
case: c => /=.
- split; first by [].
  split; first by [].
  split; first exact: frame_accelerationResidual.
  split; first exact: frame_massDampingResidual.
  split; first exact: frame_bodyforceResidual.
  split; first by move=> h v m; exact: frame_ret.
  split; first by move=> u v g beta m; exact: frame_ret.
  by split; first exact: frame_getBasicTensors.
- by split; first exact: frame_StVenantKirchoff.
- by split; first exact: frame_NeoHookean.
- by split; first exact: frame_JacobianStiffening.
Qed.

Lemma getattr_in_frame cs name m :
  getattr_in gdim cs name = Some m -> method_frame m.
Proof.
elim: cs => [|c cs IH] //=.
case E: (find_method name (class_dict gdim c)) => [m'|] //.
by case=> <-; exact: find_method_all (class_dict_frame c) E.
Qed.

Lemma getattr_frame c name m :
  getattr gdim c name = Some m -> method_frame m.
Proof. exact: getattr_in_frame. Qed.

(** C9.  The constructor stores [rho] and [props]; after it, no method
    writes to the object: each of the five shared residual methods,
    [getBasicTensors] and the three [interiorResidual] methods returns the
    object it was called on, so that a second call with the same arguments
    returns what the first one did.  The same holds for any method reached
    by name through the class of the object. *)
Theorem methods_leave_object_unchanged :
  [/\ forall c r kw,
        rho (MaterialModel_init c (Some r) kw) = r
        /\ props (MaterialModel_init c (Some r) kw) = kw,
      [/\ forall a v m, frame_preserving (accelerationResidual a v m),
          forall vdot c v m, frame_preserving (massDampingResidual vdot c v m),
          forall f v m, frame_preserving (bodyforceResidual f v m),
          forall h v m, frame_preserving (tractionBCResidual h v m)
        & forall u v g beta m,
            frame_preserving (penaltyWeakBCResidual u v g beta m)],
      forall u, frame_preserving (getBasicTensors gdim u),
      [/\ forall u v m,
            frame_preserving (StVenantKirchoff_interiorResidual gdim u v m),
          forall u v S0 m,
            frame_preserving (NeoHookean_interiorResidual gdim u v S0 m)
        & forall u v J_M m,
            frame_preserving
              (JacobianStiffening_interiorResidual gdim u v J_M m)]
    & [/\ forall name a b m, frame_preserving (call3 gdim name a b m),
          forall name a b c m, frame_preserving (call4 gdim name a b c m),
          forall name a b c d m,
            frame_preserving (call5 gdim name a b c d m),
          forall name a b S0 m,
            frame_preserving (callS0 gdim name a b S0 m)
        & forall name u, frame_preserving (callT gdim name u)]].
Proof.
split.
- by [].
- split.
  + exact: frame_accelerationResidual.
  + exact: frame_massDampingResidual.
  + exact: frame_bodyforceResidual.
  + by move=> h v m; exact: frame_ret.
  + by move=> u v g beta m; exact: frame_ret.
- exact: frame_getBasicTensors.
- split.
  + exact: frame_StVenantKirchoff.
  + exact: frame_NeoHookean.
  + exact: frame_JacobianStiffening.
- have fr name self m0 :
      getattr gdim (ob_class self) name = Some m0 -> method_frame m0.
    exact: getattr_frame.
  split.
  + move=> name a b m self; rewrite /after /returned /call3.
    case E: (getattr gdim (ob_class self) name) => [m0|] /=; last by rewrite E.
    have := fr _ _ _ E; case: m0 E => [g||f|f|f|f|f] E /= H; rewrite ?E //.
    have [Ha _] := H a b m self; rewrite /after in Ha.
    by rewrite Ha E.
  + move=> name a b c m self; rewrite /after /returned /call4.
    case E: (getattr gdim (ob_class self) name) => [m0|] /=; last by rewrite E.
    have := fr _ _ _ E; case: m0 E => [g||f|f|f|f|f] E /= H; rewrite ?E //.
    have [Ha _] := H a b c m self; rewrite /after in Ha.
    by rewrite Ha E.
  + move=> name a b c d m self; rewrite /after /returned /call5.
    case E: (getattr gdim (ob_class self) name) => [m0|] /=; last by rewrite E.
    have := fr _ _ _ E; case: m0 E => [g||f|f|f|f|f] E /= H; rewrite ?E //.
    have [Ha _] := H a b c d m self; rewrite /after in Ha.
    by rewrite Ha E.
  + move=> name a b S0 m self; rewrite /after /returned /callS0.
    case E: (getattr gdim (ob_class self) name) => [m0|] /=; last by rewrite E.
    have := fr _ _ _ E; case: m0 E => [g||f|f|f|f|f] E /= H; rewrite ?E //.
    have [Ha _] := H a b S0 m self; rewrite /after in Ha.
    by rewrite Ha E.
  + move=> name u self; rewrite /after /returned /callT.
    case E: (getattr gdim (ob_class self) name) => [m0|] /=; last by rewrite E.
    have := fr _ _ _ E; case: m0 E => [g||f|f|f|f|f] E /= H; rewrite ?E //.
    have [Ha _] := H u self; rewrite /after in Ha.
    by rewrite Ha E.
Qed.

(** C10.  The five shared residual methods never read [props]: on two
    objects of the same concrete law with the same density, whatever their
    property dictionaries, each method returns the same form, and it does
    return one (no exception, hence no [KeyError]); this holds in
    particular for an object built without any property.  [KeyError] can
    only come out of [interiorResidual]. *)
Theorem shared_residuals_ignore_props (s1 s2 : instance) :
  is_law (ob_class s1) -> ob_class s2 = ob_class s1 -> rho s2 = rho s1 ->
  [/\ forall a v m,
        returned (call3 gdim "accelerationResidual" a v m) s1
        = returned (call3 gdim "accelerationResidual" a v m) s2
        /\ succeeds (returned (call3 gdim "accelerationResidual" a v m) s1),
      forall vdot c v m,
        returned (call4 gdim "massDampingResidual" vdot c v m) s1
        = returned (call4 gdim "massDampingResidual" vdot c v m) s2
        /\ succeeds
             (returned (call4 gdim "massDampingResidual" vdot c v m) s1),
      forall f v m,
        returned (call3 gdim "bodyforceResidual" f v m) s1
        = returned (call3 gdim "bodyforceResidual" f v m) s2
        /\ succeeds (returned (call3 gdim "bodyforceResidual" f v m) s1),
      forall h v m,
        returned (call3 gdim "tractionBCResidual" h v m) s1
        = returned (call3 gdim "tractionBCResidual" h v m) s2
        /\ succeeds (returned (call3 gdim "tractionBCResidual" h v m) s1)
    & forall u v g beta m,
        returned (call5 gdim "penaltyWeakBCResidual" u v g beta m) s1
        = returned (call5 gdim "penaltyWeakBCResidual" u v g beta m) s2
        /\ succeeds
             (returned (call5 gdim "penaltyWeakBCResidual" u v g beta m) s1)]
  /\ forall a v vdot c g beta m,
       let s0 := {| ob_class := ob_class s1; rho := rho s1; props := [::] |} in
       [/\ succeeds (returned (call3 gdim "accelerationResidual" a v m) s0),
           succeeds
             (returned (call4 gdim "massDampingResidual" vdot c v m) s0),
           succeeds (returned (call3 gdim "bodyforceResidual" a v m) s0),
           succeeds (returned (call3 gdim "tractionBCResidual" a v m) s0)
         & succeeds
             (returned (call5 gdim "penaltyWeakBCResidual" a v g beta m)
                s0)].
Proof.
move=> law1 Hc Hrho; have law2 : is_law (ob_class s2) by rewrite Hc.
rewrite /returned; split; first split.
- by move=> a v m; rewrite !call_accelerationResidual //= Hrho.
- by move=> vdot c v m; rewrite !call_massDampingResidual //= Hrho.
- by move=> f v m; rewrite !call_bodyforceResidual //= Hrho.
- by move=> h v m; rewrite !call_tractionBCResidual.
- by move=> u v g beta m; rewrite !call_penaltyWeakBCResidual.
- move=> a v vdot c g beta m.
  rewrite call_accelerationResidual // call_massDampingResidual //.
  rewrite call_bodyforceResidual // call_tractionBCResidual //.
  by rewrite call_penaltyWeakBCResidual.
Qed.

(** What the three [interiorResidual] methods compute when the properties
    they read are present. *)
Lemma StVenantKirchoff_SE u kappa mu self :
  lookup "kappa" (props self) = Some kappa ->
  lookup "mu" (props self) = Some mu ->
  StVenantKirchoff_S gdim u self
  = (inr (deformation_gradient gdim u,
          StVenantKirchoff_stress kappa mu
            (Identity (spatial_dimension gdim u)) (green_lagrange gdim u)),
     self).
Proof.
move=> Hk Hm; rewrite /StVenantKirchoff_S /bind getBasicTensorsE /=.
by rewrite /self_props Hk Hm.
Qed.


Lemma NeoHookean_SE u S0 kappa mu self :
  lookup "kappa" (props self) = Some kappa ->
  lookup "mu" (props self) = Some mu ->
  NeoHookean_S gdim u S0 self
  = (inr (deformation_gradient gdim u,
          NeoHookean_stress mu kappa (Identity (spatial_dimension gdim u))
            (jacobian gdim u) (right_cauchy_green gdim u)
            (Tr (Identity (spatial_dimension gdim u))),
          NeoHookean_S0 gdim u S0), self).
Proof.
move=> Hk Hm; rewrite /NeoHookean_S /bind getBasicTensorsE /=.
by rewrite /self_props Hm Hk.
Qed.

Lemma NeoHookean_interiorResidualE u v S0 m kappa mu self :
  lookup "kappa" (props self) = Some kappa ->
  lookup "mu" (props self) = Some mu ->
  NeoHookean_interiorResidual gdim u v S0 m self
  = (inr (Inner (deformation_gradient gdim u
                 * (NeoHookean_stress mu kappa
                      (Identity (spatial_dimension gdim u))
                      (jacobian gdim u) (right_cauchy_green gdim u)
                      (Tr (Identity (spatial_dimension gdim u)))
                    + NeoHookean_S0 gdim u S0))
            (Grad v) *d m), self).
Proof.
move=> Hk Hm.
by rewrite /NeoHookean_interiorResidual /bind (NeoHookean_SE _ _ Hk Hm).
Qed.

Lemma JacobianStiffening_SE u J_M pw self :
  lookup "power_J_M" (props self) = Some pw ->
  JacobianStiffening_S gdim u J_M self
  = (inr (deformation_gradient gdim u,
          JacobianStiffening_stress
            (bulkModulus (Constant 1 / Pow J_M pw)%ufl
               (Constant (3%:Q / 10%:Q)))
            (shearModulus (Constant 1 / Pow J_M pw)%ufl
               (Constant (3%:Q / 10%:Q)))
            (Identity (spatial_dimension gdim u)) (green_lagrange gdim u)),
     self).
Proof.
move=> Hp; rewrite /JacobianStiffening_S /bind getBasicTensorsE /=.
by rewrite (JacobianStiffening_moduliE _ Hp).
Qed.



(** C6.  Omitting [S0] in the Neo-Hookean [interiorResidual] is the same
    as passing the zero tensor of the inferred spatial dimension: the call
    with [S0 = Constant(0)*I] returns the very same result, and for any
    [S0] that denotes the zero matrix of that size at the points of the
    measure both calls raise the same exception or return forms of equal
    value. *)
Theorem neo_hookean_S0_default (u v : expr) (m : measure) (self : instance) :
  NeoHookean_interiorResidual gdim u v
    (Some (Constant 0 * Identity (spatial_dimension gdim u))%ufl) m self
  = NeoHookean_interiorResidual gdim u v None m self
  /\ forall (S0 : expr) (q : quadrature R),
       at_points
         (denotes_matrix rpow gdim (0 : 'M_(spatial_dimension gdim u)) S0)
         (q m) ->
       same_value rpow gdim q
         (returned (NeoHookean_interiorResidual gdim u v (Some S0) m) self)
         (returned (NeoHookean_interiorResidual gdim u v None m) self).
Proof.
split=> [|S0 q H].
  rewrite /NeoHookean_interiorResidual /NeoHookean_S /bind.
  by rewrite getBasicTensorsE.
rewrite /returned /NeoHookean_interiorResidual /NeoHookean_S /bind.
rewrite getBasicTensorsE /= /self_props.
case: (lookup "mu" (props self)) => [mu|] //=.
case: (lookup "kappa" (props self)) => [kappa|] //=.
apply: integrate_ext; apply: at_points_impl H => p HS0.
rewrite 2!eval_Inner 2!eval_Mul 2!eval_Add HS0.
by rewrite eval_Mul eval_Constant eval_Identity /= rmorph0 scale0r.
Qed.

Lemma eval_scale p a E n (x : R) (A : 'M[R]_n) :
  denotes_scalar rpow gdim x a p -> denotes_matrix rpow gdim A E p ->
  denotes_matrix rpow gdim (x *: A) (a * E)%ufl p.
Proof. by rewrite /denotes_scalar /denotes_matrix eval_Mul => -> ->. Qed.

Lemma eval_sum p E1 E2 n (A1 A2 : 'M[R]_n) :
  denotes_matrix rpow gdim A1 E1 p -> denotes_matrix rpow gdim A2 E2 p ->
  denotes_matrix rpow gdim (A1 + A2) (E1 + E2)%ufl p.
Proof.
by rewrite /denotes_matrix eval_Add => -> -> /=; rewrite mx_castK.
Qed.

(** C8.  The stress [S] that the St. Venant-Kirchhoff [interiorResidual]
    computes is [StVenantKirchoff_stress kappa mu I E] with [E] the
    Green-Lagrange strain; with scalar [kappa] and [mu] and [I] the n-by-n
    identity it is linear in [E]: the stress of [alpha*E] means [alpha]
    times the stress of [E], and the stress of [E1 + E2] means the sum of
    the stresses, for n-by-n strains and a scalar [alpha]. *)
Theorem svk_stress_linear p (kappa mu Id E1 E2 alpha : expr) (n : nat)
    (k m a : R) (A1 A2 : 'M[R]_n) :
  denotes_scalar rpow gdim k kappa p -> denotes_scalar rpow gdim m mu p ->
  denotes_matrix rpow gdim (1%:M : 'M_n) Id p ->
  denotes_matrix rpow gdim A1 E1 p -> denotes_matrix rpow gdim A2 E2 p ->
  denotes_scalar rpow gdim a alpha p ->
  [/\ forall u self,
        lookup "kappa" (props self) = Some kappa ->
        lookup "mu" (props self) = Some mu ->
        returned (StVenantKirchoff_S gdim u) self
        = inr (deformation_gradient gdim u,
               StVenantKirchoff_stress kappa mu
                 (Identity (spatial_dimension gdim u))
                 (green_lagrange gdim u)),
      eval p (StVenantKirchoff_stress kappa mu Id (alpha * E1)%ufl)
      = eval p (alpha * StVenantKirchoff_stress kappa mu Id E1)%ufl,
      eval p (StVenantKirchoff_stress kappa mu Id (E1 + E2)%ufl)
      = eval p (StVenantKirchoff_stress kappa mu Id E1
                + StVenantKirchoff_stress kappa mu Id E2)%ufl,
      denotes_matrix rpow gdim (a *: svk_value k m A1)
        (StVenantKirchoff_stress kappa mu Id (alpha * E1)%ufl) p
    & denotes_matrix rpow gdim (svk_value k m A1 + svk_value k m A2)
        (StVenantKirchoff_stress kappa mu Id (E1 + E2)%ufl) p].
Proof.
move=> Hk Hm HI H1 H2 Ha.
have S1 := eval_StVenantKirchoff_stress Hk Hm HI H1.
have S2 := eval_StVenantKirchoff_stress Hk Hm HI H2.
have SZ := eval_StVenantKirchoff_stress Hk Hm HI (eval_scale Ha H1).
have SD := eval_StVenantKirchoff_stress Hk Hm HI (eval_sum H1 H2).
rewrite svk_valueZ in SZ; rewrite svk_valueD in SD.
split=> //.
- by move=> u self Hkappa Hmu; rewrite /returned (StVenantKirchoff_SE _ Hkappa Hmu).
- by rewrite SZ (eval_scale Ha S1).
- by rewrite SD (eval_sum S1 S2).
Qed.

Section UnitPower.

(** The one law of the power function that is used: [1 ** y = 1]. *)
Hypothesis rpow1 : forall y : R, rpow 1 y = Some 1.

Lemma eval_NeoHookean_stress_identity p mu kappa Id J C n (m k : R) :
  denotes_scalar rpow gdim m mu p -> denotes_scalar rpow gdim k kappa p ->
  denotes_matrix rpow gdim (1%:M : 'M_n) Id p ->
  denotes_scalar rpow gdim 1 J p ->
  denotes_matrix rpow gdim (1%:M : 'M_n) C p ->
  denotes_matrix rpow gdim (0 : 'M_n)
    (NeoHookean_stress mu kappa Id J C (Tr Id)) p.
Proof.
rewrite /denotes_scalar /denotes_matrix /NeoHookean_stress.
move=> Hm Hk HI HJ HC.
rewrite eval_Add !eval_Mul !eval_Sub eval_Mul !eval_Div eval_Add eval_Sub.
rewrite !eval_Pow !eval_Inv !eval_Tr !eval_ScalarValue Hm Hk HI HJ HC /=.
rewrite !mx_castK /= !rpow1 /=.
rewrite (negbTE (ratr_nat_neq0 2)) (negbTE (ratr_nat_neq0 1)) unitmx1 /=.
rewrite invmx1 mx_castK /= mx_castK /=.
set a := _^-1 * (_ + _); set b := _ * (1 - _).
have -> : a = 1.
  by rewrite /a [\tr _ + _]addrC subrK mulVf // ratr_nat_neq0.
have -> : b = 0 by rewrite /b rmorph1 subrr mulr0.
by rewrite scale1r subrr scaler0 scale0r addr0.
Qed.

Lemma neo_hookean_zero_stress p u n mu kappa :
  zero_displacement rpow gdim n u p ->
  is_scalar rpow gdim mu p -> is_scalar rpow gdim kappa p ->
  denotes_matrix rpow gdim (0 : 'M_n)
    (NeoHookean_stress mu kappa (Identity (spatial_dimension gdim u))
       (jacobian gdim u) (right_cauchy_green gdim u)
       (Tr (Identity (spatial_dimension gdim u)))) p.
Proof.
move=> /zero_kinematics [HI _ HJ HC _] [m Hm] [k Hk].
exact: eval_NeoHookean_stress_identity Hm Hk HI HJ HC.
Qed.




Lemma eval_unit_power p J_M pw (y : R) :
  denotes_scalar rpow gdim 1 J_M p -> denotes_scalar rpow gdim y pw p ->
  denotes_scalar rpow gdim 1 (Pow J_M pw) p.
Proof.
by rewrite /denotes_scalar eval_Pow => -> -> /=; rewrite rpow1.
Qed.

(** C7.  Where the mesh Jacobian [J_M] is 1 and the exponent stored under
    power_J_M is any scalar, the moduli built by the Jacobian-stiffening
    [interiorResidual] mean [bulkModulus(1, 0.3)] and
    [shearModulus(1, 0.3)] (as numbers, and as the expressions these calls
    build), and the stress is the St. Venant-Kirchhoff formula
    [K*tr(E)*I + 2*mu*(E - tr(E)*I/3)] applied to them. *)
Theorem jacobian_stiffening_unit_J_M p (J_M pw : expr) (y : R)
    (self : instance) :
  lookup "power_J_M" (props self) = Some pw ->
  denotes_scalar rpow gdim 1 J_M p -> denotes_scalar rpow gdim y pw p ->
  exists K mu,
    [/\ returned (JacobianStiffening_moduli J_M) self = inr (K, mu),
        denotes_scalar rpow gdim (bulkModulus 1 (ratr (3%:Q / 10%:Q))) K p
        /\ eval p K
           = eval p (bulkModulus (ScalarValue 1)
                       (ScalarValue (3%:Q / 10%:Q))),
        denotes_scalar rpow gdim (shearModulus 1 (ratr (3%:Q / 10%:Q))) mu p
        /\ eval p mu
           = eval p (shearModulus (ScalarValue 1)
                       (ScalarValue (3%:Q / 10%:Q)))
      & forall u,
          returned (JacobianStiffening_S gdim u J_M) self
          = inr (deformation_gradient gdim u,
                 StVenantKirchoff_stress K mu
                   (Identity (spatial_dimension gdim u))
                   (green_lagrange gdim u))].
Proof.
move=> Hp HJ Hy; do 2!eexists.
rewrite /returned (JacobianStiffening_moduliE _ Hp).
have [] := eval_JacobianStiffening_moduli (eval_unit_power HJ Hy) (oner_neq0 R).
rewrite divr1 => HK Hmu.
have H1 : denotes_scalar rpow gdim 1 (ScalarValue 1) p.
  by rewrite /denotes_scalar eval_ScalarValue rmorph1.
have Hnu : denotes_scalar rpow gdim (ratr (3%:Q / 10%:Q))
             (ScalarValue (3%:Q / 10%:Q)) p by [].
split.
- by [].
- split=> //; rewrite HK.
  by rewrite (eval_bulkModulus H1 Hnu fictitious_nu_first fictitious_nu_second).
- by split=> //; rewrite Hmu (eval_shearModulus H1 Hnu fictitious_nu_second).
- by move=> u; rewrite (JacobianStiffening_SE _ _ Hp).
Qed.

End UnitPower.

End SemanticsFacts.

(** ** Further facts about the module

    Closed forms and edge cases of the moduli conversions, invariants of the
    kinematic tensors, and how the residuals and the three laws behave and
    compose. *)

Section MoreFacts.

Variable R : numFieldType.
Variable rpow : R -> R -> option R.
Variable gdim : nat.

Notation eval := (eval rpow gdim).

(** X1.  The bulk modulus built from a Young modulus [e] and a Poisson
    ratio [v] with [v <> -1] and [v <> 1/2] is [e / (3 (1 - 2 v))], on
    numbers and as the meaning of the expression the call builds. *)
Theorem bulkModulus_closed_form p (E nu : expr) (e v : R) :
  denotes_scalar rpow gdim e E p -> denotes_scalar rpow gdim v nu p ->
  1 + v != 0 -> 1 - 2%:R * v != 0 ->
  bulkModulus e v = e / (3%:R * (1 - 2%:R * v))
  /\ denotes_scalar rpow gdim (e / (3%:R * (1 - 2%:R * v))) (bulkModulus E nu) p.
Proof.
move=> He Hv n1 n2.
have eq : bulkModulus e v = e / (3%:R * (1 - 2%:R * v)).
  rewrite /bulkModulus /firstLameParameter /secondLameParameter /=.
  by rewrite fmorph_div rmorph1 !rmorph_int; field.
split=> //; rewrite -eq.
apply: eval_bulkModulus => //; first exact: mulf_neq0.
by rewrite mulf_neq0 // pnatr_eq0.
Qed.

(** X2.  At Poisson ratio 0 the first Lame parameter is 0, the second
    one and the shear modulus are [e / 2], and the bulk modulus is
    [e / 3]. *)
Theorem lame_parameters_zero_poisson p (E : expr) (e : R) :
  denotes_scalar rpow gdim e E p ->
  [/\ denotes_scalar rpow gdim 0 (firstLameParameter E (ScalarValue 0)) p,
      denotes_scalar rpow gdim (e / 2%:R) (secondLameParameter E (ScalarValue 0)) p,
      denotes_scalar rpow gdim (e / 2%:R) (shearModulus E (ScalarValue 0)) p
    & denotes_scalar rpow gdim (e / 3%:R) (bulkModulus E (ScalarValue 0)) p].
Proof.
move=> He.
have H0 : denotes_scalar rpow gdim 0 (ScalarValue 0) p.
  by rewrite /denotes_scalar eval_ScalarValue rmorph0.
have n1 : (1 + 0) * (1 - 2%:R * 0) != 0 :> R.
  by rewrite addr0 mulr0 subr0 mulr1 oner_neq0.
have n2 : 2%:R * (1 + 0) != 0 :> R by rewrite addr0 mulr1 pnatr_eq0.
have e1 : firstLameParameter e 0 = 0 :> R.
  by rewrite /firstLameParameter /= mulr0 mul0r.
have e2 : secondLameParameter e 0 = e / 2%:R :> R.
  by rewrite /secondLameParameter /= rmorph1 rmorph_int addr0 mulr1.
have e3 : bulkModulus e 0 = e / 3%:R :> R.
  rewrite /bulkModulus e1 e2 /= fmorph_div !rmorph_int add0r.
  by field.
split.
- by rewrite -e1; exact: eval_firstLameParameter.
- by rewrite -e2; exact: eval_secondLameParameter.
- by rewrite -e2; exact: eval_shearModulus.
- by rewrite -e3; exact: eval_bulkModulus.
Qed.

(** X3.  The conversions do not guard their denominators: at Poisson
    ratio -1 none of the four expressions has a value, and at 1/2 the first
    Lame parameter and the bulk modulus have none while the shear modulus
    is [e / 3]. *)
Theorem conversion_singular_poisson p (E nu : expr) (e v : R) :
  denotes_scalar rpow gdim e E p -> denotes_scalar rpow gdim v nu p ->
  (v = -1 ->
   [/\ eval p (firstLameParameter E nu) = None,
       eval p (secondLameParameter E nu) = None,
       eval p (shearModulus E nu) = None
     & eval p (bulkModulus E nu) = None])
  /\ (v = 2%:R^-1 ->
      [/\ eval p (firstLameParameter E nu) = None,
          eval p (bulkModulus E nu) = None
        & denotes_scalar rpow gdim (e / 3%:R) (shearModulus E nu) p]).
Proof.
rewrite /denotes_scalar => He Hv; split=> Ev.
- have z1 : (ratr 1 + v) * (ratr 1 - ratr 2%:Q * v) == 0 :> R.
    by rewrite Ev rmorph1 subrr mul0r.
  have z2 : ratr 2%:Q * (ratr 1 + v) == 0 :> R.
    by rewrite Ev rmorph1 subrr mulr0.
  have H1 : eval p (firstLameParameter E nu) = None.
    by rewrite /firstLameParameter /= He Hv /= z1.
  have H2 : eval p (secondLameParameter E nu) = None.
    by rewrite /secondLameParameter /= He Hv /= z2.
  split=> //.
  by rewrite /bulkModulus [padd]/= eval_Add H1.
- have z1 : (ratr 1 + v) * (ratr 1 - ratr 2%:Q * v) == 0 :> R.
    rewrite Ev rmorph1 rmorph_int mulfV ?pnatr_eq0 //.
    by rewrite subrr mulr0.
  have H1 : eval p (firstLameParameter E nu) = None.
    by rewrite /firstLameParameter /= He Hv /= z1.
  split=> //; first by rewrite /bulkModulus [padd]/= eval_Add H1.
  have -> : e / 3%:R = shearModulus e v.
    rewrite /shearModulus /secondLameParameter /= Ev rmorph1 rmorph_int.
    by field.
  apply: eval_shearModulus => //.
  rewrite Ev mulf_neq0 ?pnatr_eq0 //.
  have -> : 1 + 2%:R^-1 = 3%:R / 2%:R :> R by field.
  by rewrite mulf_neq0 ?invr_neq0 ?pnatr_eq0.
Qed.

(** X4.  The fictitious moduli of the Jacobian stiffening scale with the
    inverse of [J_M ** power_J_M]: where that power is a non-zero scalar
    [d], the bulk modulus means [(5/6) / d] and the shear modulus
    [(5/13) / d]. *)
Theorem jacobian_stiffening_moduli_scaling p (J_M pw : expr) (d : R)
    (self : instance) :
  lookup "power_J_M" (props self) = Some pw ->
  denotes_scalar rpow gdim d (Pow J_M pw) p -> d != 0 ->
  exists K mu,
    [/\ returned (JacobianStiffening_moduli J_M) self = inr (K, mu),
        denotes_scalar rpow gdim (5%:R / 6%:R / d) K p
      & denotes_scalar rpow gdim (5%:R / 13%:R / d) mu p].
Proof.
move=> Hp Hd ne; do 2!eexists.
rewrite /returned (JacobianStiffening_moduliE _ Hp).
have [HK Hmu] := eval_JacobianStiffening_moduli Hd ne.
split=> //.
- have -> : 5%:R / 6%:R / d = bulkModulus (1 / d) (ratr (3%:Q / 10%:Q)).
    rewrite /bulkModulus /firstLameParameter /secondLameParameter /=.
    rewrite ratr_fictitious_nu fmorph_div rmorph1 !rmorph_int.
    by field.
  exact: HK.
- have -> : 5%:R / 13%:R / d = shearModulus (1 / d) (ratr (3%:Q / 10%:Q)).
    rewrite /shearModulus /secondLameParameter /=.
    rewrite ratr_fictitious_nu rmorph1 !rmorph_int.
    by field.
  exact: Hmu.
Qed.

(** X5.  Where [J_M ** power_J_M] is zero, the Jacobian-stiffening
    stress has no value, nor has the integrand of the residual. *)
Theorem jacobian_stiffening_singular p (u v J_M pw : expr) (self : instance) :
  lookup "power_J_M" (props self) = Some pw ->
  denotes_scalar rpow gdim 0 (Pow J_M pw) p ->
  exists F S_,
    [/\ returned (JacobianStiffening_S gdim u J_M) self = inr (F, S_),
        eval p S_ = None
      & eval p (Inner (F * S_) (Grad v)) = None].
Proof.
move=> Hp H0; do 2!eexists.
rewrite /returned (JacobianStiffening_SE _ _ _ Hp).
have HE : eval p (Constant 1 / Pow J_M pw)%ufl = None.
  by rewrite eval_Div H0 /= eqxx.
have HK : eval p (bulkModulus (Constant 1 / Pow J_M pw)%ufl
                    (Constant (3%:Q / 10%:Q))) = None.
  rewrite /bulkModulus /firstLameParameter [padd]/= [pdiv]/= [pmul]/=.
  by rewrite eval_Add eval_Div eval_Mul HE.
have HS : eval p (JacobianStiffening_stress
            (bulkModulus (Constant 1 / Pow J_M pw)%ufl
               (Constant (3%:Q / 10%:Q)))
            (shearModulus (Constant 1 / Pow J_M pw)%ufl
               (Constant (3%:Q / 10%:Q)))
            (Identity (spatial_dimension gdim u)) (green_lagrange gdim u))
          = None.
  by rewrite /JacobianStiffening_stress eval_Add 2!eval_Mul HK.
split=> //.
by rewrite eval_Inner eval_Mul HS; case: (eval p (deformation_gradient _ _)).
Qed.

(** X6.  For a displacement with a square gradient, the right
    Cauchy-Green tensor and the Green-Lagrange strain returned by
    [getBasicTensors] are symmetric, and [det C = J * J]. *)
Theorem strain_tensors_symmetric p (u : expr) (n : nat) (H : 'M[R]_n) :
  eval p (Grad u) = Some (VMat H) ->
  [/\ eval p (Transpose (right_cauchy_green gdim u))
      = eval p (right_cauchy_green gdim u),
      eval p (Transpose (green_lagrange gdim u))
      = eval p (green_lagrange gdim u)
    & eval p (Det (right_cauchy_green gdim u))
      = eval p (jacobian gdim u * jacobian gdim u)%ufl].
Proof.
move=> Hu; split.
- rewrite eval_Transpose (eval_right_cauchy_green Hu) /=.
  by rewrite trmx_mul trmxK.
- rewrite eval_Transpose (eval_green_lagrange Hu) /=.
  by rewrite linearZ /= linearB /= trmx_mul trmxK trmx1.
- rewrite eval_Det eval_Mul (eval_right_cauchy_green Hu) (eval_jacobian Hu) /=.
  by rewrite mx_castK /= det_mulmx det_tr.
Qed.

(** X7.  The deformation gradient built by [getBasicTensors] has a
    value only for a vector displacement whose size is the dimension of the
    mesh, and then it is the gradient plus the identity; in particular the
    branch for a displacement of rank 0 (identity of size 0) never yields
    one. *)
Theorem deformation_gradient_defined p (u : expr) (F : value R) :
  eval p (deformation_gradient gdim u) = Some F ->
  ufl_shape gdim u = [:: gdim]
  /\ exists2 H : 'M[R]_gdim,
       eval p (Grad u) = Some (VMat H) & F = VMat (H + 1%:M).
Proof.
rewrite /deformation_gradient eval_Add eval_Identity.
case Hu: (eval p (Grad u)) => [g|] //=.
have Hs := grad_shape Hu.
case: g Hu Hs => [a|k x|r c A] Hu /= Hs //.
have [er ec] : spatial_dimension gdim u = r /\ gdim = c.
  rewrite /spatial_dimension.
  by case: (ufl_shape gdim u) Hs => [|a [|b [|b' s]]] //= [-> ->].
rewrite er; have [e|ne] := (r =P c); last first.
  by rewrite mx_cast_neq // => -[].
move: A Hu Hs ec; rewrite -{c}e => A Hu Hs ec.
rewrite mx_castK /= => -[<-].
have Hsh : ufl_shape gdim u = [:: gdim].
  by case: (ufl_shape gdim u) Hs => [|a [|b [|b' s]]] //= [-> _]; rewrite ec.
split=> //; move: A Hu {Hs}; rewrite -ec => A Hu.
by exists A.
Qed.

(** X8.  With the moduli converted from a Young modulus and a Poisson
    ratio, the St. Venant-Kirchhoff stress is the classical
    [lambda tr(E) I + 2 mu E] in the two Lame parameters. *)
Theorem svk_stress_lame_form p (Ey nu Id E : expr) (n : nat) (l m : R)
    (A : 'M[R]_n) :
  denotes_scalar rpow gdim l (firstLameParameter Ey nu) p ->
  denotes_scalar rpow gdim m (secondLameParameter Ey nu) p ->
  denotes_matrix rpow gdim (1%:M : 'M_n) Id p -> denotes_matrix rpow gdim A E p ->
  denotes_matrix rpow gdim ((l * \tr A) *: 1%:M + (2%:R * m) *: A)
    (StVenantKirchoff_stress (bulkModulus Ey nu) (shearModulus Ey nu) Id E) p.
Proof.
move=> Hl Hm HI HE.
have Hk : denotes_scalar rpow gdim (l + 2%:R / 3%:R * m) (bulkModulus Ey nu) p.
  rewrite /denotes_scalar /bulkModulus [padd]/= [pmul]/= [lit]/=.
  by rewrite eval_Add eval_Mul eval_ScalarValue Hl Hm /= fmorph_div !rmorph_int.
have := eval_StVenantKirchoff_stress Hk Hm HI HE.
rewrite /denotes_matrix => ->; congr (Some (VMat _)).
apply/matrixP => i j; rewrite /svk_value !mxE.
by case: (i == j); rewrite /= ?mulr1n ?mulr0n; field.
Qed.

(** X9.  The trace of the St. Venant-Kirchhoff stress is
    [(n kappa + 2 mu (1 - n/3)) tr(E)] in dimension [n]; in three
    dimensions the deviatoric part is trace-free and it is
    [3 kappa tr(E)]. *)
Theorem svk_stress_trace p (kappa mu Id E : expr) (n : nat) (k m : R)
    (A : 'M[R]_n) :
  denotes_scalar rpow gdim k kappa p -> denotes_scalar rpow gdim m mu p ->
  denotes_matrix rpow gdim (1%:M : 'M_n) Id p -> denotes_matrix rpow gdim A E p ->
  denotes_scalar rpow gdim
    ((n%:R * k + 2%:R * m * (1 - n%:R / 3%:R)) * \tr A)
    (Tr (StVenantKirchoff_stress kappa mu Id E)) p
  /\ (n = 3%N ->
      denotes_scalar rpow gdim (3%:R * k * \tr A)
        (Tr (StVenantKirchoff_stress kappa mu Id E)) p).
Proof.
move=> Hk Hm HI HE.
have HS := eval_StVenantKirchoff_stress Hk Hm HI HE.
have Ht : denotes_scalar rpow gdim (\tr (svk_value k m A))
            (Tr (StVenantKirchoff_stress kappa mu Id E)) p.
  by rewrite /denotes_scalar eval_Tr HS /= mx_castK.
have eq : \tr (svk_value k m A)
          = (n%:R * k + 2%:R * m * (1 - n%:R / 3%:R)) * \tr A.
  rewrite /svk_value mxtraceD !mxtraceZ linearB /= !mxtraceZ mxtrace1.
  by field.
split; first by rewrite -eq.
move=> n3; have en : n%:R = 3%:R :> R by rewrite n3.
rewrite /denotes_scalar in Ht *; rewrite Ht eq en.
by congr (Some (VScal _)); field.
Qed.

Lemma obind2_None A B C (f : A -> B -> option C) x : obind2 f x None = None.
Proof. by case: x. Qed.

(** X10.  An object built without a density gets [Constant(0)]: its
    acceleration, mass-damping and body-force residuals integrate to zero
    wherever their integrands are scalars. *)
Theorem default_density_residuals_vanish (c : class)
    (kw : seq (string * expr)) (a v cd : expr) (m : measure)
    (q : quadrature R) (self : instance) :
  is_law c -> instantiate gdim c None kw = inr self ->
  at_points (fun p => is_scalar rpow gdim (Inner a v) p
                      /\ is_scalar rpow gdim cd p) (q m) ->
  exists f1 f2 f3,
    [/\ returned (call3 gdim "accelerationResidual" a v m) self = inr f1
        /\ eval_form rpow gdim q f1 = Some 0,
        returned (call4 gdim "massDampingResidual" a cd v m) self = inr f2
        /\ eval_form rpow gdim q f2 = Some 0
      & returned (call3 gdim "bodyforceResidual" a v m) self = inr f3
        /\ eval_form rpow gdim q f3 = Some 0].
Proof.
move=> law; rewrite (instantiate_law _ _ _ law) => -[<-] H.
do 3!eexists; rewrite /returned.
rewrite call_accelerationResidual // call_massDampingResidual //.
rewrite call_bodyforceResidual //=.
split; split=> //; apply: integrate_zero; apply: at_points_impl H => p.
- case=> [[x Hx] _]; rewrite /denotes_scalar eval_Mul eval_Constant.
  by rewrite Hx /= rmorph0 mul0r.
- case=> [[x Hx] [y Hy]].
  rewrite /denotes_scalar 2!eval_Mul eval_Constant Hx Hy /=.
  by rewrite rmorph0 !mul0r.
- case=> [[x Hx] _].
  rewrite /denotes_scalar eval_Mul eval_Neg eval_Constant Hx /=.
  by rewrite rmorph0 oppr0 mul0r.
Qed.

Lemma vmul_vneg (x y : value R) : vmul (vneg x) y = omap (@vneg R) (vmul x y).
Proof.
case: x => [a|n x|r c A]; case: y => [b|k y|r' c' B] //=.
- by rewrite mulNr.
- by rewrite scaleNr.
- by rewrite scaleNr.
- by rewrite scalerN.
- by rewrite scalerN.
- by case: (mx_cast c 1 y) => [y'|] //=; rewrite mulNmx.
- by case: (mx_cast c c' B) => [B'|] //=; rewrite mulNmx.
Qed.

Lemma integrate_opp e1 e2 (pts : seq (R * env R)) :
  (forall p, eval p e1 = omap (@vneg R) (eval p e2)) ->
  integrate rpow gdim e1 pts = omap -%R (integrate rpow gdim e2 pts).
Proof.
move=> H; elim: pts => [|[w p] pts IH] /=; first by rewrite oppr0.
rewrite H IH; case: (eval p e2) => [[a|n x|r c A]|] //=.
case: (integrate rpow gdim e2 pts) => [s|] //=.
by rewrite mulrN opprD.
Qed.

(** X11.  Sign convention: for the same field and test function the
    body-force residual is the opposite of the acceleration residual, under
    every quadrature rule (both have no value together). *)
Theorem bodyforce_opposes_acceleration (f v : expr) (m : measure)
    (q : quadrature R) (self : instance) :
  exists fa fb,
    [/\ returned (accelerationResidual f v m) self = inr fa,
        returned (bodyforceResidual f v m) self = inr fb
      & eval_form rpow gdim q fb = omap -%R (eval_form rpow gdim q fa)].
Proof.
do 2!eexists; split; [reflexivity | reflexivity |].
apply: integrate_opp => p.
rewrite 2!eval_Mul eval_Neg.
case: (eval p (rho self)) => [x|] //; case: (eval p (Inner f v)) => [y|] //.
exact: vmul_vneg.
Qed.

(** X12.  The penalty residual vanishes where the Dirichlet condition
    holds: if [u] and [g] have the same vector value at the points of the
    boundary measure, the form integrates to zero for any scalar stiffness
    and vector test function. *)
Theorem penalty_vanishes_on_boundary_condition (u v g beta : expr)
    (m : measure) (q : quadrature R) (self : instance) :
  at_points
    (fun p => exists n (x y : 'cV[R]_n) (b : R),
       [/\ eval p u = Some (VVec x), eval p g = Some (VVec x),
           eval p v = Some (VVec y) & eval p beta = Some (VScal b)])
    (q m) ->
  exists2 f, returned (penaltyWeakBCResidual u v g beta m) self = inr f
             & eval_form rpow gdim q f = Some 0.
Proof.
move=> H; eexists; first by reflexivity.
apply: integrate_zero; apply: at_points_impl H => p [n [x [y [b [Hu Hg Hv Hb]]]]].
rewrite /denotes_scalar eval_Neg eval_Inner eval_Mul eval_Sub.
rewrite Hu Hg Hv Hb /= /vsub /= mx_castK /= mx_castK /=.
by rewrite subrr scaler0 mul0mx mxtrace0 oppr0.
Qed.

(** X13.  Where the deformation gradient is singular ([J = 0]) the
    right Cauchy-Green tensor has no inverse and the Neo-Hookean stress has
    no value. *)
Theorem neo_hookean_singular p (u : expr) (S0 : option expr) (n : nat)
    (H : 'M[R]_n) (kappa mu : expr) (self : instance) :
  lookup "kappa" (props self) = Some kappa ->
  lookup "mu" (props self) = Some mu ->
  eval p (Grad u) = Some (VMat H) -> \det (H + 1%:M) = 0 ->
  exists F S_ S0',
    [/\ returned (NeoHookean_S gdim u S0) self = inr (F, S_, S0'),
        denotes_scalar rpow gdim 0 (jacobian gdim u) p,
        eval p (Inv (right_cauchy_green gdim u)) = None
      & eval p S_ = None].
Proof.
move=> Hk Hm Hu Hdet; do 3!eexists.
rewrite /returned (NeoHookean_SE _ _ _ Hk Hm).
have HJ : denotes_scalar rpow gdim 0 (jacobian gdim u) p.
  by rewrite /denotes_scalar (eval_jacobian Hu) Hdet.
have HC : eval p (Inv (right_cauchy_green gdim u)) = None.
  rewrite eval_Inv (eval_right_cauchy_green Hu) /= mx_castK /=.
  by rewrite unitmxE det_mulmx det_tr Hdet mulr0 unitr0.
split=> //.
by rewrite /NeoHookean_stress eval_Add [eval p (_ * Inv _)%ufl]eval_Mul HC !obind2_None.
Qed.

(** X14.  [interiorResidual] reads nothing but its required keys: two
    objects that agree on them (kappa and mu, or power_J_M) give the same
    result, whatever their densities and other properties. *)
Theorem interiorResidual_reads_only_its_keys (s1 s2 : instance)
    (u v J_M : expr) (S0 : option expr) (m : measure) :
  [/\ lookup "kappa" (props s1) = lookup "kappa" (props s2) ->
      lookup "mu" (props s1) = lookup "mu" (props s2) ->
      returned (StVenantKirchoff_interiorResidual gdim u v m) s1
      = returned (StVenantKirchoff_interiorResidual gdim u v m) s2,
      lookup "kappa" (props s1) = lookup "kappa" (props s2) ->
      lookup "mu" (props s1) = lookup "mu" (props s2) ->
      returned (NeoHookean_interiorResidual gdim u v S0 m) s1
      = returned (NeoHookean_interiorResidual gdim u v S0 m) s2
    & lookup "power_J_M" (props s1) = lookup "power_J_M" (props s2) ->
      returned (JacobianStiffening_interiorResidual gdim u v J_M m) s1
      = returned (JacobianStiffening_interiorResidual gdim u v J_M m) s2].
Proof.
split.
- move=> Hk Hm; rewrite /returned /StVenantKirchoff_interiorResidual.
  rewrite /StVenantKirchoff_S /bind !getBasicTensorsE /= /self_props Hk.
  by case: (lookup "kappa" (props s2)) => [k|] //=; rewrite Hm; case: (lookup _ _).
- move=> Hk Hm; rewrite /returned /NeoHookean_interiorResidual.
  rewrite /NeoHookean_S /bind !getBasicTensorsE /= /self_props Hm.
  by case: (lookup "mu" (props s2)) => [k|] //=; rewrite Hk; case: (lookup _ _).
- move=> Hp; rewrite /returned /JacobianStiffening_interiorResidual.
  rewrite /JacobianStiffening_S /bind !getBasicTensorsE /=.
  rewrite /JacobianStiffening_moduli /bind /self_props Hp.
  by case E: (lookup "power_J_M" (props s2)) => [k|] //=; rewrite Hp E.
Qed.

Lemma svk_value_tr n (k m : R) (A : 'M[R]_n) :
  (svk_value k m A)^T = svk_value k m A^T.
Proof.
apply/matrixP => i j; rewrite /svk_value mxtrace_tr !mxE.
by rewrite [j == i]eq_sym.
Qed.

(** X15.  The second Piola-Kirchhoff stress computed by the
    St. Venant-Kirchhoff law is a symmetric n-by-n matrix, for scalar moduli
    and a displacement with an n-by-n gradient. *)
Theorem svk_stress_symmetric p (u : expr) (n : nat) (H : 'M[R]_n)
    (kappa mu : expr) (self : instance) :
  lookup "kappa" (props self) = Some kappa ->
  lookup "mu" (props self) = Some mu ->
  is_scalar rpow gdim kappa p -> is_scalar rpow gdim mu p ->
  eval p (Grad u) = Some (VMat H) ->
  exists F S_,
    [/\ returned (StVenantKirchoff_S gdim u) self = inr (F, S_),
        exists A : 'M[R]_n, denotes_matrix rpow gdim A S_ p
      & eval p (Transpose S_) = eval p S_].
Proof.
move=> Hk Hm [k Hkv] [m Hmv] Hu; do 2!eexists.
rewrite /returned (StVenantKirchoff_SE _ _ Hk Hm).
have HI : denotes_matrix rpow gdim (1%:M : 'M_n) (Identity (spatial_dimension gdim u)) p.
  by rewrite /denotes_matrix (grad_spatial_dimension Hu).
have HE := eval_green_lagrange Hu.
have HS := eval_StVenantKirchoff_stress Hkv Hmv HI HE.
split=> //; first by eexists; exact: HS.
rewrite eval_Transpose HS /= svk_value_tr.
by rewrite linearZ /= linearB /= trmx_mul trmxK trmx1.
Qed.

(** X16.  A rigid rotation is stress-free: if [F^T F = I] then [C = I],
    [E = 0], the St. Venant-Kirchhoff stress vanishes for any scalar moduli,
    and so does the Neo-Hookean stress when moreover [det F = 1] and
    [1 ** y = 1]. *)
Theorem rigid_rotation_stress_free p (u : expr) (n : nat) (H : 'M[R]_n) :
  eval p (Grad u) = Some (VMat H) ->
  (H + 1%:M)^T *m (H + 1%:M) = 1%:M ->
  [/\ denotes_matrix rpow gdim (1%:M : 'M_n) (right_cauchy_green gdim u) p,
      denotes_matrix rpow gdim (0 : 'M_n) (green_lagrange gdim u) p,
      forall K mu,
        is_scalar rpow gdim K p -> is_scalar rpow gdim mu p ->
        denotes_matrix rpow gdim (0 : 'M_n)
          (StVenantKirchoff_stress K mu (Identity (spatial_dimension gdim u))
             (green_lagrange gdim u)) p
    & (forall y : R, rpow 1 y = Some 1) -> \det (H + 1%:M) = 1 ->
      forall mu kappa,
        is_scalar rpow gdim mu p -> is_scalar rpow gdim kappa p ->
        denotes_matrix rpow gdim (0 : 'M_n)
          (NeoHookean_stress mu kappa (Identity (spatial_dimension gdim u))
             (jacobian gdim u) (right_cauchy_green gdim u)
             (Tr (Identity (spatial_dimension gdim u)))) p].
Proof.
move=> Hu orth.
have HC : denotes_matrix rpow gdim (1%:M : 'M_n) (right_cauchy_green gdim u) p.
  by rewrite /denotes_matrix (eval_right_cauchy_green Hu) orth.
have HE : denotes_matrix rpow gdim (0 : 'M_n) (green_lagrange gdim u) p.
  rewrite /denotes_matrix (eval_green_lagrange Hu) orth.
  by rewrite subrr scaler0.
have HI : denotes_matrix rpow gdim (1%:M : 'M_n) (Identity (spatial_dimension gdim u)) p.
  by rewrite /denotes_matrix (grad_spatial_dimension Hu).
split=> //.
- move=> K mu [k Hk] [m Hm].
  by have := eval_StVenantKirchoff_stress Hk Hm HI HE; rewrite svk_value0.
- move=> rpow1 Hdet mu kappa [m Hm] [k Hk].
  apply: (eval_NeoHookean_stress_identity rpow1 Hm Hk HI _ HC).
  by rewrite /denotes_scalar (eval_jacobian Hu) Hdet.
Qed.

Lemma integrate_add e e1 e2 (pts : seq (R * env R)) :
  at_points
    (fun p => exists a b,
       [/\ eval p e1 = Some (VScal a), eval p e2 = Some (VScal b)
         & eval p e = Some (VScal (a + b))]) pts ->
  exists s1 s2,
    [/\ integrate rpow gdim e1 pts = Some s1,
        integrate rpow gdim e2 pts = Some s2
      & integrate rpow gdim e pts = Some (s1 + s2)].
Proof.
elim: pts => [|[w p] pts IH] /=.
  by exists 0, 0; rewrite addr0.
case=> [[a [b [-> -> ->]]] /IH [s1 [s2 [-> -> ->]]]].
exists (w * a + s1), (w * b + s2); split=> //.
by rewrite mulrDr addrACA.
Qed.

(** X17.  The reference stress [S0] of the Neo-Hookean law enters the
    residual additively: the value of the form with [S0] is the value of
    the form without it plus the integral of [inner(F*S0, grad v)]. *)
Theorem neo_hookean_S0_additive (u v S0 kappa mu : expr) (m : measure)
    (q : quadrature R) (self : instance) (n : nat) :
  lookup "kappa" (props self) = Some kappa ->
  lookup "mu" (props self) = Some mu ->
  at_points
    (fun p => exists H Sv S0v Gv : 'M[R]_n,
       [/\ eval p (Grad u) = Some (VMat H),
           denotes_matrix rpow gdim Sv
             (NeoHookean_stress mu kappa
                (Identity (spatial_dimension gdim u)) (jacobian gdim u)
                (right_cauchy_green gdim u)
                (Tr (Identity (spatial_dimension gdim u)))) p,
           denotes_matrix rpow gdim S0v S0 p
         & denotes_matrix rpow gdim Gv (Grad v) p]) (q m) ->
  exists f f0 a b,
    [/\ returned (NeoHookean_interiorResidual gdim u v None m) self = inr f,
        returned (NeoHookean_interiorResidual gdim u v (Some S0) m) self
        = inr f0,
        eval_form rpow gdim q f = Some a,
        eval_form rpow gdim q
          (Inner (deformation_gradient gdim u * S0) (Grad v) *d m) = Some b
      & eval_form rpow gdim q f0 = Some (a + b)].
Proof.
move=> Hk Hm H.
rewrite /returned !(NeoHookean_interiorResidualE _ _ _ _ _ Hk Hm) /=.
set F := deformation_gradient gdim u.
set S_ := NeoHookean_stress _ _ _ _ _ _.
set Z := (Constant 0 * _)%ufl.
have [a [b [Ha Hb Hab]]] :
  exists a b,
    [/\ integrate rpow gdim (Inner (F * (S_ + Z)) (Grad v)) (q m) = Some a,
        integrate rpow gdim (Inner (F * S0) (Grad v)) (q m) = Some b
      & integrate rpow gdim (Inner (F * (S_ + S0)) (Grad v)) (q m)
        = Some (a + b)].
  apply: integrate_add; apply: at_points_impl H => p.
  move=> [Hv [Sv [S0v [Gv [Hu HS HS0 HG]]]]].
  have HF := eval_deformation_gradient Hu.
  have HZ : eval p Z = Some (VMat (0 : 'M[R]_n)).
    rewrite /Z (grad_spatial_dimension Hu) eval_Mul eval_Constant.
    by rewrite eval_Identity /= rmorph0 scale0r.
  exists (\tr ((Hv + 1%:M) *m Sv *m Gv^T)), (\tr ((Hv + 1%:M) *m S0v *m Gv^T)).
  rewrite !eval_Inner !eval_Mul /F HF.
  rewrite [eval p (S_ + Z)%ufl]eval_Add [eval p (S_ + S0)%ufl]eval_Add.
  rewrite /S_ HS HS0 HG HZ /=.
  rewrite !mx_castK /= !mx_castK /= !mx_castK /= addr0; split=> //.
  by rewrite mulmxDr mulmxDl mxtraceD.
by do 4!eexists; split; [reflexivity | reflexivity | exact: Ha | exact: Hb
                        | exact: Hab].
Qed.

Lemma eval_NeoHookean_stress p (mu kappa Id J C : expr) (n : nat)
    (m k j r1 r2 : R) (Cm : 'M[R]_n) :
  denotes_scalar rpow gdim m mu p -> denotes_scalar rpow gdim k kappa p ->
  denotes_matrix rpow gdim (1%:M : 'M_n) Id p -> denotes_scalar rpow gdim j J p ->
  denotes_matrix rpow gdim Cm C p -> Cm \in unitmx ->
  rpow j (ratr (- 2%:Q / 3%:Q)) = Some r1 -> rpow j (ratr 2%:Q) = Some r2 ->
  denotes_matrix rpow gdim
    ((m * r1) *: (1%:M - (3%:R^-1 * (\tr Cm + (3%:R - n%:R))) *: invmx Cm)
     + (2%:R^-1 * k * (r2 - 1)) *: invmx Cm)
    (NeoHookean_stress mu kappa Id J C (Tr Id)) p.
Proof.
rewrite /denotes_scalar /denotes_matrix /NeoHookean_stress.
move=> Hm Hk HI HJ HC unitC Hr1 Hr2.
rewrite eval_Add !eval_Mul !eval_Sub eval_Mul !eval_Div eval_Add eval_Sub.
rewrite !eval_Pow !eval_Inv !eval_Tr !eval_ScalarValue Hm Hk HI HJ HC /=.
rewrite !mx_castK /= Hr1 Hr2 unitC /=.
rewrite (negbTE (ratr_nat_neq0 R 2)) (negbTE (ratr_nat_neq0 R 1)) /=.
rewrite mx_castK /= mx_castK /= mxtrace1.
by rewrite [ratr 1]rmorph1 !rmorph_int.
Qed.

(** X18.  The Neo-Hookean stress is a symmetric n-by-n matrix wherever
    it is defined (invertible deformation gradient, powers of [J]
    defined, scalar moduli). *)
Theorem neo_hookean_stress_symmetric p (u : expr) (S0 : option expr)
    (n : nat) (H : 'M[R]_n) (kappa mu : expr) (r1 r2 : R) (self : instance) :
  lookup "kappa" (props self) = Some kappa ->
  lookup "mu" (props self) = Some mu ->
  is_scalar rpow gdim kappa p -> is_scalar rpow gdim mu p ->
  eval p (Grad u) = Some (VMat H) -> \det (H + 1%:M) != 0 ->
  rpow (\det (H + 1%:M)) (ratr (- 2%:Q / 3%:Q)) = Some r1 ->
  rpow (\det (H + 1%:M)) (ratr 2%:Q) = Some r2 ->
  exists F S_ S0',
    [/\ returned (NeoHookean_S gdim u S0) self = inr (F, S_, S0'),
        exists A : 'M[R]_n, denotes_matrix rpow gdim A S_ p
      & eval p (Transpose S_) = eval p S_].
Proof.
move=> Hk Hm [k Hkv] [m Hmv] Hu Hdet Hr1 Hr2; do 3!eexists.
rewrite /returned (NeoHookean_SE _ _ _ Hk Hm).
have HI : denotes_matrix rpow gdim (1%:M : 'M_n) (Identity (spatial_dimension gdim u)) p.
  by rewrite /denotes_matrix (grad_spatial_dimension Hu).
have unitC : (H + 1%:M)^T *m (H + 1%:M) \in unitmx.
  by rewrite unitmxE det_mulmx det_tr unitfE mulf_neq0.
have HS := eval_NeoHookean_stress Hmv Hkv HI (eval_jacobian Hu)
             (eval_right_cauchy_green Hu) unitC Hr1 Hr2.
split=> //; first by eexists; exact: HS.
rewrite eval_Transpose HS /=; congr (Some (VMat _)).
set Ci := invmx _.
have CiT : Ci^T = Ci by rewrite /Ci trmx_inv trmx_mul trmxK.
apply/matrixP => i j; rewrite !mxE [j == i]eq_sym.
by have -> : Ci j i = Ci i j by rewrite -[in RHS]CiT mxE.
Qed.

End MoreFacts.

(** ** The theorems at the concrete setting *)

Lemma rat_pow1 (y : rat) : rat_pow 1 y = Some 1.
Proof. by rewrite /rat_pow eqxx exp1rz; case: (denq y == 1). Qed.



Lemma shared_residuals_same_for_all_laws_witness :
  returned (call3 2 "accelerationResidual" example_u example_v dx) example_svk
  = returned (call3 2 "accelerationResidual" example_u example_v dx)
      example_nh.
Proof.
have [_ [H _ _ _ _]] :=
  @shared_residuals_same_for_all_laws rat rat_pow 2 example_svk example_nh
    isT isT erefl.
by case: (H example_u example_v dx).
Defined.

Lemma shared_residuals_ignore_props_witness :
  returned (call3 2 "bodyforceResidual" example_u example_v dx) example_svk
  = returned (call3 2 "bodyforceResidual" example_u example_v dx)
      example_bare.
Proof.
have [[_ _ H _ _] _] :=
  @shared_residuals_ignore_props 2 example_svk example_bare isT erefl erefl.
by case: (H example_u example_v dx).
Defined.

Lemma jacobian_stiffening_unit_J_M_witness :
  exists K mu,
    returned (JacobianStiffening_moduli (Constant 1)) example_js
    = inr (K, mu)
    /\ denotes_scalar rat_pow 2 (bulkModulus 1 (ratr (3%:Q / 10%:Q)))
         K example_env.
Proof.
have H1 : denotes_scalar rat_pow 2 (1 : rat) (Constant 1) example_env.
  by rewrite /denotes_scalar eval_Constant rmorph1.
have H2 : denotes_scalar rat_pow 2 (ratr 2%:Q : rat) (ScalarValue 2%:Q)
            example_env by [].
have [K [mu [HK [HKv _] _ _]]] :=
  @jacobian_stiffening_unit_J_M rat rat_pow 2 rat_pow1 example_env
    (Constant 1) (ScalarValue 2%:Q) (ratr 2%:Q) example_js erefl H1 H2.
by exists K, mu.
Defined.

Lemma svk_stress_linear_witness :
  eval rat_pow 2 example_env
    (StVenantKirchoff_stress (ScalarValue 2%:Q) (ScalarValue 1) (Identity 2)
       (ScalarValue 3%:Q * Identity 2)%ufl)
  = eval rat_pow 2 example_env
      (ScalarValue 3%:Q
       * StVenantKirchoff_stress (ScalarValue 2%:Q) (ScalarValue 1)
           (Identity 2) (Identity 2))%ufl.
Proof.
have [_ H _ _ _] :=
  @svk_stress_linear rat rat_pow 2 example_env (ScalarValue 2%:Q)
    (ScalarValue 1) (Identity 2) (Identity 2) (Identity 2) (ScalarValue 3%:Q)
    2 (ratr 2%:Q) (ratr 1) (ratr 3%:Q) 1%:M 1%:M erefl erefl erefl erefl erefl
    erefl.
exact: H.
Defined.

Lemma bulkModulus_closed_form_witness :
  denotes_scalar rat_pow 2 (ratr 1 / (3%:R * (1 - 2%:R * ratr 0)))
    (bulkModulus (ScalarValue 1) (ScalarValue 0)) example_env.
Proof.
have n1 : 1 + ratr 0 != 0 :> rat by rewrite rmorph0 addr0 oner_neq0.
have n2 : 1 - 2%:R * ratr 0 != 0 :> rat.
  by rewrite rmorph0 mulr0 subr0 oner_neq0.
have [_ H] := @bulkModulus_closed_form rat rat_pow 2 example_env
  (ScalarValue 1) (ScalarValue 0) (ratr 1) (ratr 0) erefl erefl n1 n2.
exact: H.
Defined.

Lemma lame_parameters_zero_poisson_witness :
  denotes_scalar rat_pow 2 (ratr 2%:Q / 3%:R)
    (bulkModulus (ScalarValue 2%:Q) (ScalarValue 0)) example_env.
Proof.
have [_ _ _ H] := @lame_parameters_zero_poisson rat rat_pow 2 example_env
  (ScalarValue 2%:Q) (ratr 2%:Q) erefl.
exact: H.
Defined.

Lemma conversion_singular_poisson_witness :
  eval rat_pow 2 example_env
    (bulkModulus (ScalarValue 1) (ScalarValue (- 1))) = None.
Proof.
have [H _] := @conversion_singular_poisson rat rat_pow 2 example_env
  (ScalarValue 1) (ScalarValue (- 1)) (ratr 1) (ratr (- 1)) erefl erefl.
have [_ _ _ H'] := H (rmorphN1 _).
exact: H'.
Defined.

Lemma example_unit_power :
  denotes_scalar rat_pow 2 1 (Pow (Constant 1) (ScalarValue 2%:Q)) example_env.
Proof.
by apply: (eval_unit_power rat_pow1 (y := ratr 2%:Q)).
Qed.

Lemma jacobian_stiffening_moduli_scaling_witness :
  exists K mu,
    returned (JacobianStiffening_moduli (Constant 1)) example_js = inr (K, mu)
    /\ denotes_scalar rat_pow 2 (5%:R / 6%:R / 1) K example_env.
Proof.
have [K [mu [HK HKv _]]] :=
  @jacobian_stiffening_moduli_scaling rat rat_pow 2 example_env (Constant 1)
    (ScalarValue 2%:Q) 1 example_js erefl example_unit_power (oner_neq0 _).
by exists K, mu.
Defined.

Lemma jacobian_stiffening_singular_witness :
  exists F S_,
    returned (JacobianStiffening_S 2 example_u (Constant 1)) example_js
    = inr (F, S_)
    /\ eval zero_pow 2 example_env S_ = None.
Proof.
have [F [S_ [HS HN _]]] :=
  @jacobian_stiffening_singular rat zero_pow 2 example_env example_u
    example_v (Constant 1) (ScalarValue 2%:Q) example_js erefl erefl.
by exists F, S_.
Defined.

Lemma strain_tensors_symmetric_witness :
  eval rat_pow 2 example_env (Transpose (right_cauchy_green 2 example_u))
  = eval rat_pow 2 example_env (right_cauchy_green 2 example_u).
Proof.
have [H _ _] := @strain_tensors_symmetric rat rat_pow 2 example_env
  example_u 2 0 erefl.
exact: H.
Defined.

Lemma deformation_gradient_defined_witness :
  ufl_shape 2 example_u = [:: 2%N].
Proof.
have HF := @eval_deformation_gradient rat rat_pow 2 example_env example_u 2 0
  erefl.
have [H _] := deformation_gradient_defined HF.
exact: H.
Defined.

Lemma example_poisson_first :
  (1 + ratr 0) * (1 - 2%:R * ratr 0) != 0 :> rat.
Proof. by rewrite rmorph0 addr0 mul1r ?mulr0 ?subr0 oner_neq0. Qed.

Lemma example_poisson_second : 2%:R * (1 + ratr 0) != 0 :> rat.
Proof. by rewrite rmorph0 addr0 ?mulr1 pnatr_eq0. Qed.

Lemma svk_stress_lame_form_witness :
  denotes_matrix rat_pow 2
    ((firstLameParameter (ratr 1) (ratr 0) * \tr (1%:M : 'M[rat]_2)) *: 1%:M
     + (2%:R * secondLameParameter (ratr 1) (ratr 0)) *: 1%:M : 'M[rat]_2)
    (StVenantKirchoff_stress
       (bulkModulus (ScalarValue 1) (ScalarValue 0))
       (shearModulus (ScalarValue 1) (ScalarValue 0))
       (Identity 2) (Identity 2)) example_env.
Proof.
have Hl := @eval_firstLameParameter rat rat_pow 2 example_env (ScalarValue 1)
  (ScalarValue 0) (ratr 1) (ratr 0) erefl erefl example_poisson_first.
have Hm := @eval_secondLameParameter rat rat_pow 2 example_env (ScalarValue 1)
  (ScalarValue 0) (ratr 1) (ratr 0) erefl erefl example_poisson_second.
exact: (@svk_stress_lame_form rat rat_pow 2 example_env (ScalarValue 1)
          (ScalarValue 0) (Identity 2) (Identity 2) 2 _ _ 1%:M Hl Hm erefl
          erefl).
Defined.

Lemma svk_stress_trace_witness :
  denotes_scalar rat_pow 2
    ((2%:R * ratr 2%:Q + 2%:R * ratr 1 * (1 - 2%:R / 3%:R))
     * \tr (1%:M : 'M[rat]_2))
    (Tr (StVenantKirchoff_stress (ScalarValue 2%:Q) (ScalarValue 1)
           (Identity 2) (Identity 2))) example_env.
Proof.
have [H _] := @svk_stress_trace rat rat_pow 2 example_env (ScalarValue 2%:Q)
  (ScalarValue 1) (Identity 2) (Identity 2) 2 (ratr 2%:Q) (ratr 1) 1%:M
  erefl erefl erefl erefl.
exact: H.
Defined.

Lemma example_inner_scalar :
  at_points (fun p => is_scalar rat_pow 2 (Inner example_u example_v) p
                      /\ is_scalar rat_pow 2 (ScalarValue 1) p)
    (example_quadrature dx).
Proof.
split=> //; split; last by exists (ratr 1).
exists (\tr ((0 : 'cV[rat]_2) *m (0 : 'cV[rat]_2)^T)).
by rewrite /denotes_scalar eval_Inner /= mx_castK.
Qed.

Lemma default_density_residuals_vanish_witness :
  exists f,
    returned (call3 2 "accelerationResidual" example_u example_v dx)
      example_default = inr f
    /\ eval_form rat_pow 2 example_quadrature f = Some 0.
Proof.
have [f1 [f2 [f3 [H _ _]]]] :=
  @default_density_residuals_vanish rat rat_pow 2 StVenantKirchoff [::]
    example_u example_v (ScalarValue 1) dx example_quadrature example_default
    isT erefl example_inner_scalar.
by exists f1.
Defined.

Lemma example_boundary_points :
  at_points
    (fun p => exists n (x y : 'cV[rat]_n) (b : rat),
       [/\ eval rat_pow 2 p example_u = Some (VVec x),
           eval rat_pow 2 p example_u = Some (VVec x),
           eval rat_pow 2 p example_v = Some (VVec y)
         & eval rat_pow 2 p (ScalarValue 1) = Some (VScal b)])
    (example_quadrature ds).
Proof. by split=> //; exists 2%N, 0, 0, (ratr 1). Qed.

Lemma penalty_vanishes_on_boundary_condition_witness :
  exists2 f,
    returned (penaltyWeakBCResidual example_u example_v example_u
                (ScalarValue 1) ds) example_svk = inr f
    & eval_form rat_pow 2 example_quadrature f = Some 0.
Proof.
exact: (@penalty_vanishes_on_boundary_condition rat rat_pow 2 example_u
          example_v example_u (ScalarValue 1) ds example_quadrature
          example_svk example_boundary_points).
Defined.

Lemma neo_hookean_singular_witness :
  exists F S_ S0',
    returned (NeoHookean_S 2 example_u None) example_nh = inr (F, S_, S0')
    /\ eval rat_pow 2 collapse_env S_ = None.
Proof.
have Hdet : \det (- 1%:M + 1%:M : 'M[rat]_2) = 0 by rewrite addNr det0.
have [F [S_ [S0' [HS _ _ HN]]]] :=
  @neo_hookean_singular rat rat_pow 2 collapse_env example_u None 2
    (- 1%:M) (ScalarValue 2%:Q) (ScalarValue 1) example_nh erefl erefl erefl
    Hdet.
by exists F, S_, S0'.
Defined.

Lemma svk_stress_symmetric_witness :
  exists F S_,
    returned (StVenantKirchoff_S 2 example_u) example_svk = inr (F, S_)
    /\ eval rat_pow 2 example_env (Transpose S_)
       = eval rat_pow 2 example_env S_.
Proof.
have Hk : is_scalar rat_pow 2 (ScalarValue 2%:Q) example_env.
  by exists (ratr 2%:Q).
have Hm : is_scalar rat_pow 2 (ScalarValue 1) example_env.
  by exists (ratr 1).
have [F [S_ [HS _ HT]]] :=
  @svk_stress_symmetric rat rat_pow 2 example_env example_u 2 0
    (ScalarValue 2%:Q) (ScalarValue 1) example_svk erefl erefl Hk Hm erefl.
by exists F, S_.
Defined.

Lemma rigid_rotation_stress_free_witness :
  denotes_matrix rat_pow 2 (0 : 'M[rat]_2) (green_lagrange 2 example_u)
    example_env.
Proof.
have orth : (0 + 1%:M)^T *m (0 + 1%:M) = 1%:M :> 'M[rat]_2.
  by rewrite add0r trmx1 mulmx1.
have [_ H _ _] := @rigid_rotation_stress_free rat rat_pow 2 example_env
  example_u 2 0 erefl orth.
exact: H.
Defined.

Lemma example_reference_points :
  at_points
    (fun p => exists H Sv S0v Gv : 'M[rat]_2,
       [/\ eval rat_pow 2 p (Grad example_u) = Some (VMat H),
           denotes_matrix rat_pow 2 Sv
             (NeoHookean_stress (ScalarValue 1) (ScalarValue 2%:Q)
                (Identity (spatial_dimension 2 example_u))
                (jacobian 2 example_u) (right_cauchy_green 2 example_u)
                (Tr (Identity (spatial_dimension 2 example_u)))) p,
           denotes_matrix rat_pow 2 S0v (Identity 2) p
         & denotes_matrix rat_pow 2 Gv (Grad example_v) p])
    (example_quadrature dx).
Proof.
split=> //; exists 0, 0, 1%:M, 1%:M; split=> //.
apply: (neo_hookean_zero_stress rat_pow1); first by split.
- by exists (ratr 1).
- by exists (ratr 2%:Q).
Qed.

Lemma neo_hookean_S0_additive_witness :
  exists f f0 a b,
    [/\ returned (NeoHookean_interiorResidual 2 example_u example_v None dx)
          example_nh = inr f,
        returned (NeoHookean_interiorResidual 2 example_u example_v
                    (Some (Identity 2)) dx) example_nh = inr f0,
        eval_form rat_pow 2 example_quadrature f = Some a,
        eval_form rat_pow 2 example_quadrature
          (Inner (deformation_gradient 2 example_u * Identity 2)
             (Grad example_v) *d dx) = Some b
      & eval_form rat_pow 2 example_quadrature f0 = Some (a + b)].
Proof.
exact: (@neo_hookean_S0_additive rat rat_pow 2 example_u example_v
          (Identity 2) (ScalarValue 2%:Q) (ScalarValue 1) dx
          example_quadrature example_nh 2 erefl erefl
          example_reference_points).
Defined.

Lemma neo_hookean_stress_symmetric_witness :
  exists F S_ S0',
    returned (NeoHookean_S 2 example_u None) example_nh = inr (F, S_, S0')
    /\ eval rat_pow 2 example_env (Transpose S_)
       = eval rat_pow 2 example_env S_.
Proof.
have Hk : is_scalar rat_pow 2 (ScalarValue 2%:Q) example_env.
  by exists (ratr 2%:Q).
have Hm : is_scalar rat_pow 2 (ScalarValue 1) example_env.
  by exists (ratr 1).
have Hdet : \det (0 + 1%:M : 'M[rat]_2) != 0.
  by rewrite add0r det1 oner_neq0.
have Hr y : rat_pow (\det (0 + 1%:M : 'M[rat]_2)) y = Some 1.
  by rewrite add0r det1 rat_pow1.
have [F [S_ [S0' [HS _ HT]]]] :=
  @neo_hookean_stress_symmetric rat rat_pow 2 example_env example_u None 2 0
    (ScalarValue 2%:Q) (ScalarValue 1) 1 1 example_nh erefl erefl Hk Hm erefl
    Hdet (Hr _) (Hr _).
by exists F, S_, S0'.
Defined.

(** The defect behind C2 at a concrete input: a scalar field on a
    two-dimensional mesh. *)
Example getBasicTensors_scalar_field :
  returned (getBasicTensors_checked 2 (Coefficient "p" [::])) example_svk
  = inl (UFLException shape_mismatch).
Proof. by []. Qed.
